(** * Face division of the Carve CSG library

    A shallow embedding of [lib/intersect_face_division.cpp]: the base-loop
    assembler, the path/loop composer, the crossing resolver, the planar-graph
    splitter, the hole merger and the per-face driver, followed by the
    properties of the face-division specification that were checked on it.

    Conventions of the embedding.
    - A vertex handle ([const poly_t::vertex_t *]) is its address, an integer;
      pointer comparison is comparison of addresses.
    - [std::vector] and [std::list] are lists; [push_back] appends at the end.
    - [std::unordered_set] and [std::unordered_map] are [gset] and [gmap]; the
      order in which they are iterated is given by a hash that is a parameter
      of the model (record [Platform]).
    - [double] is modelled by exact rationals; every geometric primitive that
      lives outside this file is a field of the record [Kernel].
    - [CARVE_ASSERT]/[CARVE_FAIL] throw; out-of-range accesses and iterators
      that are dereferenced after erasure are undefined behaviour; loops that
      need a bound take fuel.  All three are results of the error monad [res]. *)

From stdpp Require Import gmap list fin_maps fin_sets sorting.
From Stdlib Require Import QArith Qminmax Qround ZArith Lia.

Local Open Scope Z_scope.
Local Open Scope nat_scope.

(** ** The error monad *)

Inductive error : Set :=
| AssertFailed   (* CARVE_ASSERT / CARVE_FAIL threw *)
| Undefined      (* undefined behaviour of the C++ program *)
| OutOfFuel.     (* the iteration bound of the model was reached *)

Inductive res (A : Type) : Type :=
| Ret (a : A)
| Throw (e : error).
Arguments Ret {A} a.
Arguments Throw {A} e.

#[global] Instance res_ret : MRet res := fun A a => Ret a.
#[global] Instance res_bind : MBind res := fun A B f m =>
  match m with
  | Ret a => f a
  | Throw e => Throw e
  end.

Definition CARVE_ASSERT (b : bool) : res unit :=
  if b then Ret tt else Throw AssertFailed.

(** [v[i]] on a vector: out of range is undefined behaviour. *)
Definition at_ {A} (v : list A) (i : nat) : res A :=
  match v !! i with
  | Some x => Ret x
  | None => Throw Undefined
  end.

(** [v.front()] and [v.back()]: undefined on an empty vector. *)
Definition front {A} (v : list A) : res A :=
  match head v with
  | Some x => Ret x
  | None => Throw Undefined
  end.

Definition back {A} (v : list A) : res A :=
  match last v with
  | Some x => Ret x
  | None => Throw Undefined
  end.

(** [for (i = lo; i < lo + n; ++i) st = body i st], stopping at the first throw. *)
Fixpoint for_range {St : Type} (lo n : nat) (body : nat → St → res St) (st : St) : res St :=
  match n with
  | O => Ret st
  | S n' => st' ← body lo st; for_range (S lo) n' body st'
  end.

(** [for (x : xs) st = body x st]. *)
Fixpoint for_each {A St : Type} (xs : list A) (body : A → St → res St) (st : St) : res St :=
  match xs with
  | [] => Ret st
  | x :: xs' => st' ← body x st; for_each xs' body st'
  end.

(** [f] on every element, in order, stopping at the first throw. *)
Fixpoint mapM {A B} (f : A → res B) (l : list A) : res (list B) :=
  match l with
  | [] => Ret []
  | x :: l' => y ← f x; ys ← mapM f l'; Ret (y :: ys)
  end.

(** ** Data model *)

Abbreviation vertex := Z (only parsing).
Abbreviation V2 := (Z * Z)%type (only parsing).
Abbreviation P2 := (Q * Q)%type (only parsing).
Abbreviation loop_t := (list Z) (only parsing).

(** [poly_t::edge_t]: the handle and the two end points. *)
Record edge_t : Set := {
  edge_addr : Z;
  v1 : vertex;
  v2 : vertex
}.

(** [poly_t::face_t]: the handle and the parallel cycles of vertices and
    edges.  The projector of the face is [project] of the kernel. *)
Record face_t : Set := {
  face_addr : Z;
  vertices : list vertex;
  edges : list edge_t
}.

(** [carve::csg::detail::Data]: the three maps the face division reads. *)
Record Data : Type := {
  vmap : gmap Z Z;
  divided_edges : gmap Z (list Z);
  face_split_edges : gmap Z (gset (Z * Z))
}.

Inductive PointClass : Set := POINT_OUT | POINT_ON | POINT_IN.

(** Modelled from the spec: the Geometry Kernel of section 6, which the
    face division consumes and whose code is outside this file.  [double]
    is a rational here. *)
Record Kernel : Type := {
  project : face_t → vertex → P2;
  orient2d : P2 → P2 → P2 → Q;
  signedArea : list P2 → Q;
  pointInPolySimple : list P2 → P2 → bool;
  pointInPoly : list P2 → P2 → PointClass;
  aabb_fit : list P2 → P2 * P2;
  aabb_intersects : P2 * P2 → P2 → bool;
  atan2 : P2 → Q;
  ANG : Q → Q;
  M_PI : Q;
  M_TWOPI : Q;
  incorporateHolesIntoPolygon : list (list P2) → list (nat * nat)
}.

(** What the C++ standard leaves to the implementation: the iteration order
    of the unordered containers (a hash per key type; iteration goes by
    increasing hash), whether the local [base_loop_temp_path] compares below
    the elements of the [paths] vector, and the value the caller of
    [processCrossingEdges] sees when the function flows off its end. *)
Record Platform : Type := {
  hash_vertex : Z → Z;
  hash_V2 : Z * Z → Z;
  temp_path_first : bool;
  flow_off_value : bool
}.

(** Modelled from the spec: [carve::csg::map_vertex], declared outside this
    file; [vmap] sends a vertex to its canonical vertex and leaves a vertex
    without an entry as it is. *)
Definition map_vertex (vm : gmap Z Z) (v : vertex) : vertex :=
  default v (vm !! v).

(** Modelled from the spec: [carve::csg::ordered_edge], declared outside
    this file; a split edge is an unordered pair, stored with the smaller
    handle first. *)
Definition ordered_edge (a b : vertex) : V2 := (Z.min a b, Z.max a b).

(** ** Base-loop assembler *)

(** One iteration of the loop of [assembleBaseLoop]. *)
Definition assembleBaseLoop_step (face : face_t) (data : Data)
    (j : nat) (base_loop : loop_t) : res loop_t :=
  vj ← at_ (vertices face) j;
  let base_loop := base_loop ++ [map_vertex (vmap data) vj] in
  e ← at_ (edges face) j;
  match divided_edges data !! edge_addr e with
  | Some ev_vec =>
      if decide (v1 e = vj)
      then Ret (base_loop ++ ev_vec)            (* edge is forward *)
      else Ret (base_loop ++ reverse ev_vec)    (* edge is backward *)
  | None => Ret base_loop
  end.

Definition assembleBaseLoop (face : face_t) (data : Data) : res loop_t :=
  for_range 0 (length (vertices face)) (assembleBaseLoop_step face data) [].

(** The intersection vertices that the edge [e], walked from the face
    vertex [vj], contributes to the perimeter, in the order of the walk. *)
Definition perimeter_insertion (data : Data) (ve : Z * edge_t) : list Z :=
  match divided_edges data !! edge_addr ve.2 with
  | Some ev_vec => if decide (v1 ve.2 = ve.1) then ev_vec else reverse ev_vec
  | None => []
  end.

(** The stretch of the base loop that position [j] of the face accounts
    for, according to the specification: the canonical vertex, followed by
    the intersection vertices of the edge that leaves it. *)
Definition base_block (data : Data) (vj : vertex) (e : edge_t) : list Z :=
  map_vertex (vmap data) vj :: perimeter_insertion data (vj, e).

(** ** Iteration order of the unordered containers *)

Fixpoint insert_by {A} (key : A → Z) (x : A) (l : list A) : list A :=
  match l with
  | [] => [x]
  | y :: l' => if (key x <=? key y)%Z then x :: l else y :: insert_by key x l'
  end.

Definition sort_by {A} (key : A → Z) (l : list A) : list A :=
  foldr (insert_by key) [] l.

(** The sequence [begin() .. end()] of an unordered set. *)
Definition iteration_order `{Countable A} (hash : A → Z) (s : gset A) : list A :=
  sort_by hash (elements s).

(** [*s.begin()], when the set is not empty. *)
Definition begin_ `{Countable A} (hash : A → Z) (s : gset A) : option A :=
  head (iteration_order hash s).

(** ** Path/loop composer *)

(** [detail::VVSMap]: vertex to the set of its neighbours. *)
Abbreviation VVSMap := (gmap Z (gset Z)) (only parsing).

(** [vertex_graph[a].insert(b)]. *)
Definition graph_insert (g : VVSMap) (a b : vertex) : VVSMap :=
  <[a := {[b]} ∪ default ∅ (g !! a)]> g.

(** [p->second.erase(n)] for the iterator [p] at key [a]. *)
Definition erase_link (g : VVSMap) (a n : vertex) : VVSMap :=
  alter (λ s, s ∖ {[n]}) a g.

(** [if (p->second.size() == 0) vertex_graph.erase(p)] for [p] at key [a]. *)
Definition erase_if_empty (g : VVSMap) (a : vertex) : VVSMap :=
  match g !! a with
  | Some s => if decide (size s = 0) then delete a g else g
  | None => g
  end.

Definition build_vertex_graph (P : Platform) (edges : gset (Z * Z)) : VVSMap :=
  foldl (λ g e, graph_insert (graph_insert g e.1 e.2) e.2 e.1) ∅
        (iteration_order (hash_V2 P) edges).

(** The two loops that fill [endpoints]: the vertices whose adjacency has a
    size other than 2, and the extra endpoints that occur in the graph. *)
Definition find_endpoints (g : VVSMap) (extra_endpoints : list Z) : gset Z :=
  dom (filter (λ kv, size kv.2 ≠ 2) g)
  ∪ list_to_set (filter (λ x, is_Some (g !! x)) extra_endpoints).

(** The inner [while (1)] of the first phase.  [p] is the iterator ([None]
    is [vertex_graph.end()]), [v] the current vertex. *)
Fixpoint walk_path (fuel : nat) (P : Platform) (endpoints : gset Z)
    (g : VVSMap) (p : option Z) (v : vertex) (path : list Z)
    : res (VVSMap * list Z) :=
  match fuel with
  | O => Throw OutOfFuel
  | S fuel' =>
    match p with
    | None => Throw AssertFailed    (* CARVE_ASSERT(p != vertex_graph.end()) *)
    | Some pk =>
      match g !! pk with
      | None => Throw Undefined
      | Some ps =>
        if decide (size ps = 0) then Ret (g, path)
        else
          match begin_ (hash_vertex P) ps with
          | None => Throw Undefined
          | Some n =>
            match g !! n with
            | None => Throw Undefined            (* q == end() is dereferenced *)
            | Some _ =>
              let g := erase_link g pk n in      (* p->second.erase(n) *)
              let g := erase_link g n v in       (* q->second.erase(v) *)
              let path := path ++ [n] in
              let g := erase_if_empty g pk in
              match g !! n with
              | None => Throw Undefined          (* q was invalidated by erase(p) *)
              | Some qs =>
                let g' := if decide (size qs = 0) then delete n g else g in
                let q := if decide (size qs = 0) then None else Some n in
                if bool_decide (head path = Some n) || bool_decide (q = None)
                   || bool_decide (n ∈ endpoints)
                then Ret (g', path)
                else walk_path fuel' P endpoints g' q n path
              end
            end
          end
      end
    end
  end.

(** Number of directed links of the graph; it bounds the length of a walk. *)
Definition links (g : VVSMap) : gset (Z * Z) :=
  list_to_set (map_to_list g ≫= λ kv, (λ b, (kv.1, b)) <$> elements kv.2).

(** The first phase: [while (endpoints.size())]. *)
Fixpoint compose_paths (fuel : nat) (P : Platform) (endpoints : gset Z)
    (g : VVSMap) (temp : list (list Z)) : res (VVSMap * list (list Z)) :=
  match fuel with
  | O => Throw OutOfFuel
  | S fuel' =>
    match begin_ (hash_vertex P) endpoints with
    | None => Ret (g, temp)
    | Some v =>
      match g !! v with
      | None => compose_paths fuel' P (endpoints ∖ {[v]}) g temp
      | Some _ =>
        '(g', path) ← walk_path (S (size (links g))) P endpoints g (Some v) v [v];
        b ← back path;
        _ ← CARVE_ASSERT (bool_decide (b ∈ endpoints));
        compose_paths fuel' P endpoints g' (temp ++ [path])
      end
    end
  end.

(** The inner [while (1)] of the second phase.  Here an erased [q] is not
    reset to [end()]: using it afterwards is undefined. *)
Fixpoint walk_loop (fuel : nat) (P : Platform)
    (g : VVSMap) (pk : Z) (v : vertex) (path : list Z)
    : res (VVSMap * list Z) :=
  match fuel with
  | O => Throw OutOfFuel
  | S fuel' =>
    match g !! pk with
    | None => Throw Undefined
    | Some ps =>
      match begin_ (hash_vertex P) ps with
      | None => Throw Undefined                  (* *begin() of an empty set *)
      | Some n =>
        match g !! n with
        | None => Throw Undefined
        | Some _ =>
          let g := erase_link g pk n in
          let g := erase_link g n v in
          let path := path ++ [n] in
          let g := erase_if_empty g pk in
          match g !! n with
          | None => Throw Undefined
          | Some qs =>
            let g' := if decide (size qs = 0) then delete n g else g in
            if bool_decide (head path = Some n) then Ret (g', path)
            else if decide (size qs = 0) then Throw Undefined
            else walk_loop fuel' P g' n n path
          end
        end
      end
    end
  end.

(** The second phase: [while (vertex_graph.size())]. *)
Fixpoint compose_loops (fuel : nat) (P : Platform)
    (g : VVSMap) (temp : list (list Z)) : res (list (list Z)) :=
  match fuel with
  | O => Throw OutOfFuel
  | S fuel' =>
    match begin_ (hash_vertex P) (dom g) with
    | None => Ret temp
    | Some v =>
      _ ← CARVE_ASSERT (bool_decide (size (default ∅ (g !! v)) = 2));
      '(g', path) ← walk_loop (S (size (links g))) P g v v [v];
      compose_loops fuel' P g' (temp ++ [path])
    end
  end.

Definition composeEdgesIntoPaths (P : Platform) (edges : gset (Z * Z))
    (extra_endpoints : list Z) : res (list (list Z) * list (list Z)) :=
  let vertex_graph := build_vertex_graph P edges in
  let endpoints := find_endpoints vertex_graph extra_endpoints in
  '(vertex_graph, paths) ←
     compose_paths (S (size endpoints + size (links vertex_graph))) P
                   endpoints vertex_graph [];
  loops ← compose_loops (S (size (links vertex_graph))) P vertex_graph [];
  Ret (paths, loops).

(** ** Comparisons and points *)

Definition Qltb (a b : Q) : bool := if Qlt_le_dec a b then true else false.
Definition Qleb (a b : Q) : bool := if Qlt_le_dec b a then false else true.

Definition P2_sub (a b : P2) : P2 := ((a.1 - b.1)%Q, (a.2 - b.2)%Q).

(** Modelled from the spec: [operator<] of [carve::geom2d::P2], declared
    outside this file; the order of projected points is the lexicographic
    order of their coordinates [(x, y)]. *)
Definition P2_lt (a b : P2) : bool :=
  Qltb a.1 b.1 || (Qleb a.1 b.1 && Qltb a.2 b.2).

(** Stable sort of a vector under a strict order [lt], the model of
    [std::sort] (which leaves the order of equivalent elements open). *)
Fixpoint insert_sorted {A} (lt : A → A → bool) (x : A) (l : list A) : list A :=
  match l with
  | [] => [x]
  | y :: l' => if lt y x then y :: insert_sorted lt x l' else x :: l
  end.

Definition std_sort {A} (lt : A → A → bool) (l : list A) : list A :=
  foldr (insert_sorted lt) [] l.

(** ** Planar-graph splitter *)

Module Graph.

(** An edge is referred to by the pair [(src, tgt)]: the edge set that
    [splitFace] receives holds every such pair once. *)
Record GraphEdge : Set := {
  src : vertex;
  tgt : vertex;
  ang : Q;
  visited : Z;
  loop_next : option (Z * Z)
}.

(** The list is the chain [edges, edges->next, ...]. *)
Record GraphEdges : Set := {
  edges : list GraphEdge;
  proj : P2
}.

Abbreviation graph_t := (gmap Z GraphEdges) (only parsing).

Definition key (e : GraphEdge) : Z * Z := (src e, tgt e).

Definition new_GraphEdge (s t : vertex) : GraphEdge :=
  {| src := s; tgt := t; ang := 0%Q; visited := (-1)%Z; loop_next := None |}.

Definition new_GraphEdges : GraphEdges := {| edges := []; proj := (0%Q, 0%Q) |}.

Definition addEdge (graph : graph_t) (a b : vertex) : graph_t :=
  let es := default new_GraphEdges (graph !! a) in
  <[a := {| edges := new_GraphEdge a b :: edges es; proj := proj es |}]> graph.

Definition projection (graph : graph_t) (v : vertex) : res P2 :=
  match graph !! v with
  | Some ge => Ret (proj ge)
  | None => Throw AssertFailed       (* CARVE_ASSERT(i != graph.end()) *)
  end.

Definition with_ang (e : GraphEdge) (a : Q) : GraphEdge :=
  {| src := src e; tgt := tgt e; ang := a;
     visited := visited e; loop_next := loop_next e |}.

Definition with_visited (n : Z) (e : GraphEdge) : GraphEdge :=
  {| src := src e; tgt := tgt e; ang := ang e;
     visited := n; loop_next := loop_next e |}.

Definition with_loop_next (nx : option (Z * Z)) (e : GraphEdge) : GraphEdge :=
  {| src := src e; tgt := tgt e; ang := ang e;
     visited := visited e; loop_next := nx |}.

Definition computeProjection (K : Kernel) (P : Platform) (face : face_t)
    (graph : graph_t) : res graph_t :=
  let g1 := map_imap (λ v ge, Some {| edges := edges ge;
                                      proj := project K face v |}) graph in
  for_each (iteration_order (hash_vertex P) (dom g1))
    (λ v g,
       match g !! v with
       | None => Ret g
       | Some ge =>
         es ← mapM (λ e, pt ← projection g1 (tgt e);
                         ps ← projection g1 (src e);
                         Ret (with_ang e (ANG K (atan2 K (P2_sub pt ps)))))
                   (edges ge);
         Ret (<[v := {| edges := es; proj := proj ge |}]> g)
       end) g1.

(** Remove the first node of the chain that is the edge [k]. *)
Fixpoint unlink (k : Z * Z) (es : list GraphEdge) : list GraphEdge :=
  match es with
  | [] => []
  | e :: es' => if decide (key e = k) then es' else e :: unlink k es'
  end.

Definition removeEdge (graph : graph_t) (k : Z * Z) : graph_t :=
  match graph !! k.1 with
  | None => graph
  | Some ge =>
    match unlink k (edges ge) with
    | [] => delete k.1 graph
    | es => <[k.1 := {| edges := es; proj := proj ge |}]> graph
    end
  end.

Definition empty (graph : graph_t) : bool := bool_decide (size graph = 0).

Definition one_edge (graph : graph_t) (v : vertex) : bool :=
  match graph !! v with
  | Some ge => match edges ge with [_] => true | _ => false end
  | None => false
  end.

(** The first vertex, in iteration order, with a single outbound edge;
    otherwise the first edge of the first vertex. *)
Definition pickStartEdge (P : Platform) (graph : graph_t) : res (Z * Z) :=
  let order := iteration_order (hash_vertex P) (dom graph) in
  let pick v := match graph !! v with
                | Some ge => match edges ge with
                             | e :: _ => Ret (key e)
                             | [] => Throw Undefined
                             end
                | None => Throw Undefined
                end in
  match list_find (λ v, one_edge graph v = true) order with
  | Some (_, v) => pick v
  | None => match order with
            | v :: _ => pick v
            | [] => Throw Undefined
            end
  end.

(** [graph[v].edges]; a missing entry reads as the empty chain (the entry
    that [operator[]] creates is never seen: the assertion that follows
    throws). *)
Definition outboundEdges (graph : graph_t) (v : vertex) : list GraphEdge :=
  match graph !! v with
  | Some ge => edges ge
  | None => []
  end.

Definition get_edge (graph : graph_t) (k : Z * Z) : res GraphEdge :=
  match list_find (λ e, key e = k) (outboundEdges graph k.1) with
  | Some (_, e) => Ret e
  | None => Throw Undefined
  end.

Fixpoint update_first (k : Z * Z) (f : GraphEdge → GraphEdge)
    (es : list GraphEdge) : list GraphEdge :=
  match es with
  | [] => []
  | e :: es' => if decide (key e = k) then f e :: es' else e :: update_first k f es'
  end.

Definition set_edge (graph : graph_t) (k : Z * Z) (f : GraphEdge → GraphEdge)
    : graph_t :=
  alter (λ ge, {| edges := update_first k f (edges ge); proj := proj ge |})
        k.1 graph.

(** The scan [for (opts = outboundEdges(edge->tgt); opts; opts = opts->next)]
    that selects the continuation [out] of [edge]. *)
Fixpoint scan_opts (K : Kernel) (edge_src : vertex) (in_ang : Q)
    (opts : list GraphEdge) (out : option GraphEdge) (best : Q)
    : option GraphEdge :=
  match opts with
  | [] => out
  | o :: rest =>
    if decide (tgt o = edge_src) then
      match out, rest with
      | None, [] => scan_opts K edge_src in_ang rest (Some o) best
      | _, _ => scan_opts K edge_src in_ang rest out best
      end
    else
      let out_ang := ANG K (in_ang - ang o)%Q in
      match out with
      | None => scan_opts K edge_src in_ang rest (Some o) out_ang
      | Some _ =>
        if Qltb out_ang best
        then scan_opts K edge_src in_ang rest (Some o) out_ang
        else scan_opts K edge_src in_ang rest out best
      end
  end.

Definition choose_out (K : Kernel) (graph : graph_t) (edge : GraphEdge)
    : option GraphEdge :=
  let in_ang := (M_PI K + ang edge)%Q in
  let in_ang := if Qltb (M_TWOPI K) in_ang then (in_ang - M_TWOPI K)%Q else in_ang in
  scan_opts K (src edge) in_ang (outboundEdges graph (tgt edge)) None
            (M_TWOPI K + 1)%Q.

Definition count_edges (graph : graph_t) : nat :=
  map_fold (λ _ ge n, length (edges ge) + n) 0 graph.

(** [while (start != out)]: forget the edges walked before the loop closed. *)
Fixpoint unwind (fuel : nat) (graph : graph_t) (start out : Z * Z)
    : res (graph_t * (Z * Z)) :=
  match fuel with
  | O => Throw OutOfFuel
  | S fuel' =>
    if decide (start = out) then Ret (graph, start)
    else
      e ← get_edge graph start;
      match loop_next e with
      | None => Throw Undefined                (* start becomes NULL *)
      | Some nx =>
        let graph := set_edge graph start
                       (λ e, with_visited (-1) (with_loop_next None e)) in
        unwind fuel' graph nx out
      end
  end.

(** The [while (1)] of [splitFace]: returns the graph, the first edge of
    the closed loop and its length. *)
Fixpoint walk (fuel : nat) (K : Kernel) (graph : graph_t) (start edge : Z * Z)
    : res (graph_t * (Z * Z) * Z) :=
  match fuel with
  | O => Throw OutOfFuel
  | S fuel' =>
    e ← get_edge graph edge;
    match choose_out K graph e with
    | None => Throw AssertFailed               (* CARVE_ASSERT(out != NULL) *)
    | Some out =>
      let graph := set_edge graph edge (with_loop_next (Some (key out))) in
      o ← get_edge graph (key out);
      if (0 <=? visited o)%Z then
        '(graph, start) ← unwind (S (count_edges graph)) graph start (key out);
        e ← get_edge graph edge;
        o ← get_edge graph (key out);
        Ret (graph, start, (visited e - visited o + 1)%Z)
      else
        let graph := set_edge graph (key out) (with_visited (visited e + 1)) in
        walk fuel' K graph start (key out)
    end
  end.

(** The loop that copies the closed loop out of the graph and removes its
    edges; returns the graph, the loop, its projection and the edge the
    copy stopped at. *)
Fixpoint extract (len : nat) (graph : graph_t) (edge : option (Z * Z))
    (loop : list Z) (projected : list P2)
    : res (graph_t * list Z * list P2 * option (Z * Z)) :=
  match len with
  | O => Ret (graph, loop, projected, edge)
  | S len' =>
    match edge with
    | None => Throw Undefined
    | Some k =>
      e ← get_edge graph k;
      p ← projection graph (src e);
      extract len' (removeEdge graph k) (loop_next e)
              (loop ++ [src e]) (projected ++ [p])
    end
  end.

End Graph.

(** The test of the signed area at the end of an iteration of [splitFace]. *)
Definition classify_loop (K : Kernel) (loop : list Z) (projected : list P2)
    (face_loops hole_loops : list (list Z)) : list (list Z) * list (list Z) :=
  if Qlt_le_dec (signedArea K projected) 0
  then (face_loops ++ [loop], hole_loops)
  else (face_loops, hole_loops ++ [loop]).

(** One iteration of [while (!graph.empty())]. *)
Definition splitFace_step (K : Kernel) (P : Platform) (graph : Graph.graph_t)
    (face_loops hole_loops : list (list Z))
    : res (Graph.graph_t * list (list Z) * list (list Z)) :=
  start ← Graph.pickStartEdge P graph;
  let graph := Graph.set_edge graph start (Graph.with_visited 0) in
  '(graph, start, len) ← Graph.walk (S (Graph.count_edges graph)) K graph start start;
  if (len <? 0)%Z then Throw Undefined else
  '(graph, loop, projected, edge) ←
     Graph.extract (Z.to_nat len) graph (Some start) [] [];
  _ ← CARVE_ASSERT (bool_decide (edge = Some start));
  let '(face_loops, hole_loops) :=
    classify_loop K loop projected face_loops hole_loops in
  Ret (graph, face_loops, hole_loops).

Fixpoint splitFace_loop (fuel : nat) (K : Kernel) (P : Platform)
    (graph : Graph.graph_t) (face_loops hole_loops : list (list Z))
    : res (list (list Z) * list (list Z)) :=
  match fuel with
  | O => Throw OutOfFuel
  | S fuel' =>
    if Graph.empty graph then Ret (face_loops, hole_loops)
    else
      '(graph, face_loops, hole_loops) ←
         splitFace_step K P graph face_loops hole_loops;
      splitFace_loop fuel' K P graph face_loops hole_loops
  end.

Definition splitFace (K : Kernel) (P : Platform) (face : face_t)
    (edges : gset (Z * Z)) (face_loops hole_loops : list (list Z))
    : res (list (list Z) * list (list Z)) :=
  let graph := foldl (λ g e, Graph.addEdge g e.1 e.2) ∅
                     (iteration_order (hash_V2 P) edges) in
  graph ← Graph.computeProjection K P face graph;
  splitFace_loop (S (size edges)) K P graph face_loops hole_loops.

(** ** Hole-into-face merger *)

(** The index vector that [std::sort] with [carve::index_sort] produces:
    the positions of [loop] ordered by the address stored there. *)
Definition index_sort (loop : list Z) : list nat :=
  sort_by (λ n, default 0%Z (loop !! n)) (seq 0 (length loop)).

(** [do { ++I; } while (I < F && f[f_sort[I]] == t)]; [n] bounds the
    number of increments. *)
Fixpoint skip_same (n : nat) (f : list Z) (f_sort : list nat) (t : Z) (I_ : nat)
    : res nat :=
  match n with
  | O => Ret I_
  | S n' =>
    if decide (I_ < length f) then
      i ← at_ f_sort I_;
      x ← at_ f i;
      if decide (x = t) then skip_same n' f f_sort t (S I_) else Ret I_
    else Ret I_
  end.

Record compare_result : Set := {
  f_idx : nat;
  h_idx : nat;
  unmatched_h_idx : Z;
  shares_vertex : bool;
  shares_edge : bool
}.

Definition with_unmatched (r : compare_result) (u : Z) : compare_result :=
  {| f_idx := f_idx r; h_idx := h_idx r; unmatched_h_idx := u;
     shares_vertex := shares_vertex r; shares_edge := shares_edge r |}.

(** The merge loop [for (I = J = 0; I < F && J < H;)]. *)
Fixpoint compare_loop (fuel : nat) (f : list Z) (f_sort : list nat)
    (h : list Z) (h_sort : list nat) (I_ J_ : nat) (r : compare_result)
    : res (nat * nat * compare_result) :=
  let F := length f in
  let H := length h in
  match fuel with
  | O => Throw OutOfFuel
  | S fuel' =>
    if decide (I_ < F ∧ J_ < H) then
      i ← at_ f_sort I_;
      j ← at_ h_sort J_;
      fi ← at_ f i;
      hj ← at_ h j;
      if decide (fi = hj) then
        fp ← at_ f ((i + F - 1) mod F);
        hn ← at_ h ((j + 1) mod H);
        let r := {| f_idx := i; h_idx := j; unmatched_h_idx := unmatched_h_idx r;
                    shares_vertex := true;
                    shares_edge := bool_decide (fp = hn) || shares_edge r |} in
        I_' ← skip_same F f f_sort fi (S I_);
        J_' ← skip_same H h h_sort fi (S J_);
        compare_loop fuel' f f_sort h h_sort I_' J_' r
      else if decide (fi < hj)%Z then
        compare_loop fuel' f f_sort h h_sort (S I_) J_ r
      else
        compare_loop fuel' f f_sort h h_sort I_ (S J_) (with_unmatched r (Z.of_nat j))
    else Ret (I_, J_, r)
  end.

Definition compareFaceLoopAndHoleLoop (f : list Z) (f_sort : list nat)
    (h : list Z) (h_sort : list nat) : res compare_result :=
  let r0 := {| f_idx := 0; h_idx := 0; unmatched_h_idx := (-1)%Z;
               shares_vertex := false; shares_edge := false |} in
  '(I_, J_, r) ← compare_loop (S (length f + length h)) f f_sort h h_sort 0 0 r0;
  if decide (J_ < length h) then
    j ← at_ h_sort J_; Ret (with_unmatched r (Z.of_nat j))
  else Ret r.

(** [std::map<int, std::map<int, std::pair<unsigned, unsigned>>>]. *)
Abbreviation shared_map := (gmap nat (gmap nat (nat * nat))) (only parsing).

(** The body of the loop over the face loops [j], for the hole [i]. *)
Definition containment_step (K : Kernel) (face : face_t)
    (face_loops hole_loops : list (list Z)) (i j : nat)
    (st : list (list nat) * shared_map) : res (list (list nat) * shared_map) :=
  let '(containing_faces, hole_shared_vertices) := st in
  f ← at_ face_loops j;
  h ← at_ hole_loops i;
  r ← compareFaceLoopAndHoleLoop f (index_sort f) h (index_sort h);
  h0 ← at_ h 0;
  let contained test_v hsv :=
    if pointInPolySimple K (map (project K face) f) (project K face test_v)
    then Ret (alter (λ l, l ++ [j]) i containing_faces, hsv)
    else Ret (containing_faces, hsv) in
  if shares_vertex r then
    let hsv := <[i := <[j := (h_idx r, f_idx r)]>
                         (default ∅ (hole_shared_vertices !! i))]>
               hole_shared_vertices in
    if decide (unmatched_h_idx r ≠ -1)%Z then
      t ← at_ h (Z.to_nat (unmatched_h_idx r));
      contained t hsv
    else if shares_edge r then Ret (containing_faces, hsv)
    else Throw AssertFailed                 (* CARVE_FAIL("implement me") *)
  else contained h0 hole_shared_vertices.

Definition computeContainment (K : Kernel) (face : face_t)
    (face_loops hole_loops : list (list Z))
    : res (list (list nat) * shared_map) :=
  for_range 0 (length hole_loops)
    (λ i, for_range 0 (length face_loops)
            (containment_step K face face_loops hole_loops i))
    (replicate (length hole_loops) [], ∅).

(** [m.begin()] of a [std::map<int, T>]: the entry with the least key. *)
Definition map_begin {T} (m : gmap nat T) : option (nat * T) :=
  foldr (λ kv acc, match acc with
                   | Some kv' => if decide (kv.1 < kv'.1) then Some kv else acc
                   | None => Some kv
                   end) None (map_to_list m).

(** The patch of hole [h_loop] into [f_loop] at the shared vertex. *)
Definition patch_hole (f_loop h_loop : list Z) (fi hi : nat) : list Z :=
  take (S fi) f_loop ++ drop (S hi) h_loop ++ take (S hi) h_loop
  ++ drop (S fi) f_loop.

(** The loop before the assignment: holes without a containing face are
    patched in through a shared vertex, or dropped. *)
Definition patch_step (containing_faces : list (list nat))
    (hole_shared_vertices : shared_map) (hole_loops : list (list Z)) (i : nat)
    (st : list (list Z) * Z) : res (list (list Z) * Z) :=
  let '(face_loops, unassigned) := st in
  cf ← at_ containing_faces i;
  if decide (length cf = 0) then
    match hole_shared_vertices !! i with
    | Some m =>
      match map_begin m with
      | Some (f, (hi, fi)) =>
        f_loop ← at_ face_loops f;
        h_loop ← at_ hole_loops i;
        if decide (fi < length f_loop ∧ hi < length h_loop) then
          Ret (<[f := patch_hole f_loop h_loop fi hi]> face_loops,
               (unassigned - 1)%Z)
        else Throw Undefined
      | None => Throw Undefined
      end
    | None => Ret (face_loops, (unassigned - 1)%Z)
    end
  else Ret st.

(** First half of a round: every hole with exactly one containing face
    is hooked to it. *)
Definition hook_step (containing_faces : list (list nat)) (i : nat)
    (st : list (list nat) * gset nat * Z) : res (list (list nat) * gset nat * Z) :=
  let '(face_holes, removed, unassigned) := st in
  cf ← at_ containing_faces i;
  match cf with
  | [f] =>
    if decide (f < length face_holes) then
      Ret (alter (λ l, l ++ [i]) f face_holes, {[f]} ∪ removed,
           (unassigned - 1)%Z)
    else Throw Undefined
  | _ => Ret st
  end.

(** Second half of a round: the consumed faces leave every list. *)
Definition erase_removed (removed : gset nat) (containing_faces : list (list nat))
    : list (list nat) :=
  foldl (λ cfs f, (λ cf, filter (λ x, x ≠ f) cf) <$> cfs) containing_faces
        (elements removed).

Definition assign_round (containing_faces face_holes : list (list nat))
    (unassigned : Z) : res (list (list nat) * list (list nat) * Z) :=
  '(face_holes, removed, unassigned) ←
     for_range 0 (length containing_faces) (hook_step containing_faces)
               (face_holes, ∅, unassigned);
  Ret (erase_removed removed containing_faces, face_holes, unassigned).

(** [while (unassigned)]: the program has no bound for this loop, the
    model takes one as [fuel]. *)
Fixpoint assign_holes (fuel : nat) (containing_faces face_holes : list (list nat))
    (unassigned : Z) : res (list (list nat)) :=
  match fuel with
  | O => Throw OutOfFuel
  | S fuel' =>
    if decide (unassigned = 0)%Z then Ret face_holes
    else
      '(containing_faces, face_holes, unassigned) ←
         assign_round containing_faces face_holes unassigned;
      assign_holes fuel' containing_faces face_holes unassigned
  end.

(** The loop that emits one loop per face loop, with its holes stitched
    in by the kernel. *)
Definition stitch_step (K : Kernel) (face : face_t)
    (face_loops hole_loops : list (list Z)) (face_holes : list (list nat))
    (i : nat) (f_loops : list (list Z)) : res (list (list Z)) :=
  fl ← at_ face_loops i;
  fh ← at_ face_holes i;
  if decide (length fh = 0) then Ret (f_loops ++ [fl])
  else
    holes ← mapM (at_ hole_loops) fh;
    let projected_poly : list (list P2) :=
      map (λ l : list Z, map (project K face) l) (fl :: holes) in
    let result := incorporateHolesIntoPolygon K projected_poly in
    out ← mapM (λ r : nat * nat,
                  if decide (r.1 = 0) then at_ fl r.2
                  else hl ← at_ holes (r.1 - 1); at_ hl r.2) result;
    Ret (f_loops ++ [out]).

Definition mergeFacesAndHoles (fuel : nat) (K : Kernel) (face : face_t)
    (f_loops h_loops : list (list Z)) : res (list (list Z)) :=
  let face_loops := f_loops in
  let hole_loops := h_loops in
  '(containing_faces, hole_shared_vertices) ←
     computeContainment K face face_loops hole_loops;
  let unassigned := Z.of_nat (length hole_loops) in
  let face_holes := replicate (length face_loops) [] in
  '(face_loops, unassigned) ←
     for_range 0 (length containing_faces)
       (patch_step containing_faces hole_shared_vertices hole_loops)
       (face_loops, unassigned);
  face_holes ← assign_holes fuel containing_faces face_holes unassigned;
  for_range 0 (length face_loops)
    (stitch_step K face face_loops hole_loops face_holes) [].

(** ** Crossing resolver *)

(** [path] refers to a vector of vertices: position [r] of the [paths]
    vector, or, for [r = paths.size()], the local [base_loop_temp_path]. *)
Record crossing_data : Set := {
  path : nat;
  edge_idx : nat * nat
}.

Definition with_idx0 (c : crossing_data) (i : nat) : crossing_data :=
  {| path := path c; edge_idx := (i, (edge_idx c).2) |}.
Definition with_idx1 (c : crossing_data) (i : nat) : crossing_data :=
  {| path := path c; edge_idx := ((edge_idx c).1, i) |}.
Definition with_path (c : crossing_data) (r : nat) : crossing_data :=
  {| path := r; edge_idx := edge_idx c |}.

(** [crossing_data::operator<]. *)
Definition crossing_lt (a c : crossing_data) : bool :=
  bool_decide ((edge_idx a).1 < (edge_idx c).1)
  || (bool_decide ((edge_idx a).1 = (edge_idx c).1)
      && bool_decide ((edge_idx c).2 < (edge_idx a).2)).

Definition internalToAngle (K : Kernel) (a b c p : P2) : bool :=
  let reflex := if P2_lt a c
                then Qleb (orient2d K a b c) 0
                else Qleb 0 (orient2d K c b a) in
  if reflex
  then Qleb 0 (orient2d K a b p) || Qleb 0 (orient2d K b c p)
  else Qltb 0 (orient2d K a b p) && Qltb 0 (orient2d K b c p).

(** The test of a second or later occurrence of an end point at
    [base_loop[i]]: is the neighbour of the end point inside the angle? *)
Definition attach_here (K : Kernel) (face : face_t) (base_loop : list Z)
    (i : nat) (p : list Z) : res bool :=
  let N := length base_loop in
  a ← at_ base_loop ((i + N - 1) mod N);
  b ← at_ base_loop i;
  c ← at_ base_loop ((i + 1) mod N);
  p0 ← at_ p 0;
  adj ← (if decide (p0 = b) then at_ p 1
         else if decide (2 ≤ length p) then at_ p (length p - 2)
         else Throw Undefined);
  Ret (internalToAngle K (project K face a) (project K face b)
                       (project K face c) (project K face adj)).

(** The index an end point gets when it is found at [base_loop[i]]: the
    first occurrence is taken as it comes, a later one replaces it when
    the angle test succeeds. *)
Definition relocate (K : Kernel) (face : face_t) (base_loop : list Z)
    (i : nat) (p : list Z) (current : nat) : res nat :=
  if decide (current = length base_loop) then Ret i
  else
    inside ← attach_here K face base_loop i p;
    Ret (if (inside : bool) then i else current).

(** The body of the double loop that locates the end points, for the
    position [i] of the base loop and the path [j]. *)
Definition locate_step (K : Kernel) (face : face_t) (base_loop : list Z)
    (paths : list (list Z)) (i j : nat) (endpoint_indices : list crossing_data)
    : res (list crossing_data) :=
  p ← at_ paths j;
  bi ← at_ base_loop i;
  c ← at_ endpoint_indices j;
  fr ← front p;
  c ← (if decide (fr = bi)
       then i0 ← relocate K face base_loop i p (edge_idx c).1;
            Ret (with_idx0 c i0)
       else Ret c);
  bk ← back p;
  c ← (if decide (bk = bi)
       then i1 ← relocate K face base_loop i p (edge_idx c).2;
            Ret (with_idx1 c i1)
       else Ret c);
  Ret (<[j := c]> endpoint_indices).

Definition locate_endpoints (K : Kernel) (face : face_t) (base_loop : list Z)
    (paths : list (list Z)) : res (list crossing_data) :=
  let N := length base_loop in
  for_range 0 N
    (λ i, for_range 0 (length paths) (locate_step K face base_loop paths i))
    (imap (λ i _, {| path := i; edge_idx := (N, N) |}) paths).

(** The body of the loop that orients the paths and divides them into
    [cross] and [noncross]. *)
Definition partition_step (K : Kernel) (face : face_t) (N : nat)
    (endpoint_indices : list crossing_data) (i : nat)
    (st : list (list Z) * list crossing_data * list crossing_data)
    : res (list (list Z) * list crossing_data * list crossing_data) :=
  let '(paths, cross, noncross) := st in
  c ← at_ endpoint_indices i;
  p ← at_ paths (path c);
  let '(paths, c) :=
    if decide ((edge_idx c).1 = (edge_idx c).2) then
      let area := signedArea K (map (project K face) (tail p)) in
      if Qltb area 0 then (<[path c := reverse p]> paths, c) else (paths, c)
    else if decide ((edge_idx c).2 < (edge_idx c).1) then
      (<[path c := reverse p]> paths,
       {| path := path c; edge_idx := ((edge_idx c).2, (edge_idx c).1) |})
    else (paths, c) in
  if decide ((edge_idx c).2 ≠ N)
  then Ret (paths, cross ++ [c], noncross)
  else Ret (paths, cross, noncross ++ [c]).

Definition partition_paths (K : Kernel) (face : face_t) (N : nat)
    (paths : list (list Z)) (endpoint_indices : list crossing_data)
    : res (list (list Z) * list crossing_data * list crossing_data) :=
  for_range 0 (length endpoint_indices)
    (partition_step K face N endpoint_indices) (paths, [], []).

(** The crossing list after the synthetic crossing of the whole base loop
    was added and the list was sorted.  The second component is the store
    of paths: [paths] followed by [base_loop_temp_path]. *)
Definition crossing_list (K : Kernel) (face : face_t) (base_loop : list Z)
    (paths : list (list Z)) (endpoint_indices : list crossing_data)
    : res (list (list Z) * list crossing_data * list crossing_data) :=
  let N := length base_loop in
  '(paths, cross, noncross) ← partition_paths K face N paths endpoint_indices;
  b0 ← front base_loop;
  bl ← back base_loop;
  let base_loop_temp_path := [b0; bl] in
  let cross := cross ++ [{| path := length paths; edge_idx := (0, N - 1) |}] in
  Ret (paths ++ [base_loop_temp_path],
       std_sort crossing_lt cross, std_sort crossing_lt noncross).

(** Address order of the vectors that [path] can refer to. *)
Definition path_addr (P : Platform) (npaths : nat) (r : nat) : Z :=
  if decide (r = npaths)
  then (if temp_path_first P then -1 else Z.of_nat npaths)%Z
  else Z.of_nat r.

(** [operator<] of [std::pair<double, std::vector<...> *>]. *)
Definition order_lt (P : Platform) (npaths : nat) (a b : Q * nat) : bool :=
  Qltb a.1 b.1
  || (negb (Qltb b.1 a.1) && bool_decide (path_addr P npaths a.2 < path_addr P npaths b.2)%Z).

Fixpoint count_while {A} (f : A → bool) (l : list A) : nat :=
  match l with
  | [] => 0
  | x :: l' => if f x then S (count_while f l') else 0
  end.

(** The body of the loop that orders the paths of a run of crossings with
    the same pair of indices by decreasing signed area. *)
Definition order_step (K : Kernel) (P : Platform) (face : face_t)
    (store : list (list Z)) (i : nat) (cross : list crossing_data)
    : res (list crossing_data) :=
  ci ← at_ cross i;
  let j := S i + count_while (λ c, bool_decide (edge_idx c = edge_idx ci))
                             (drop (S i) cross) in
  if decide (2 ≤ j - i) then
    let run := take (j - i) (drop i cross) in
    order ← mapM (λ c, p ← at_ store (path c);
                       Ret ((- signedArea K (map (project K face) p))%Q, path c))
                 run;
    let order := std_sort (order_lt P (length store - 1)) order in
    Ret (take i cross ++ zip_with (λ c o, with_path c o.2) run order
         ++ drop j cross)
  else Ret cross.

(** [std::copy(base_loop.begin() + lo, base_loop.begin() + hi, ...)]. *)
Definition slice (base_loop : list Z) (lo hi : nat) : res (list Z) :=
  if decide (lo ≤ hi ∧ hi ≤ length base_loop)
  then Ret (take (hi - lo) (drop lo base_loop))
  else Throw Undefined.

(** [p.begin() .. p.end() - 1]: all but the last element. *)
Definition but_last (p : list Z) : res (list Z) :=
  match p with
  | [] => Throw Undefined
  | _ => Ret (removelast p)
  end.

(** [p.rbegin() .. p.rend() - 1]: backwards, without the first element. *)
Definition rev_but_first (p : list Z) : res (list Z) :=
  match p with
  | [] => Throw Undefined
  | _ :: t => Ret (reverse t)
  end.

(** The [while (pos != e1_1)] of the complex case: the base loop from
    [pos], with the crossings embedded in the current one copied forward. *)
Fixpoint embed_crossings (fuel : nat) (base_loop : list Z)
    (store : list (list Z)) (cross : list crossing_data)
    (e1_1 pos skip : nat) (out : list Z) : res (nat * list Z) :=
  match fuel with
  | O => Throw OutOfFuel
  | S fuel' =>
    if decide (pos = e1_1) then Ret (pos, out)
    else
      c2 ← at_ cross skip;
      p2 ← at_ store (path c2);
      let e2_0 := (edge_idx c2).1 in
      let e2_1 := (edge_idx c2).2 in
      s ← slice base_loop pos e2_0;
      b ← at_ base_loop e2_0;
      p20 ← at_ p2 0;
      _ ← CARVE_ASSERT (bool_decide (b = p20));
      fwd ← but_last p2;
      let out := out ++ s ++ fwd in
      let pos := e2_1 in
      let skip := S skip + count_while (λ c, bool_decide ((edge_idx c).1 < e2_1))
                                       (drop (S skip) cross) in
      if decide (skip = length cross) then Ret (pos, out)
      else
        c ← at_ cross skip;
        if decide (e1_1 ≤ (edge_idx c).1) then Ret (pos, out)
        else embed_crossings fuel' base_loop store cross e1_1 pos skip out
  end.

(** The body of the loop that divides the base loop: the loop closed by
    the crossing [i]. *)
Definition divide_step (base_loop : list Z) (store : list (list Z))
    (cross : list crossing_data) (i : nat) (divided_base_loop : list (list Z))
    : res (list (list Z)) :=
  c1 ← at_ cross i;
  let e1_0 := (edge_idx c1).1 in
  let e1_1 := (edge_idx c1).2 in
  p1 ← at_ store (path c1);
  let complex := match cross !! S i with
                 | Some c => bool_decide (i < length cross - 1)
                             && bool_decide ((edge_idx c).1 < e1_1)
                 | None => false
                 end in
  if complex then
    '(pos, out) ← embed_crossings (S (length cross)) base_loop store cross
                                  e1_1 e1_0 (S i) [];
    s ← slice base_loop pos e1_1;
    b ← at_ base_loop e1_1;
    pb ← back p1;
    _ ← CARVE_ASSERT (bool_decide (b = pb));
    bwd ← rev_but_first p1;
    Ret (divided_base_loop ++ [out ++ s ++ bwd])
  else
    let loop_size := (e1_1 - e1_0) + (length p1 - 1) in
    s ← slice base_loop e1_0 e1_1;
    bwd ← rev_but_first p1;
    let out := s ++ bwd in
    _ ← CARVE_ASSERT (bool_decide (length out = loop_size));
    Ret (divided_base_loop ++ [out]).

(** Pairs of consecutive elements of a vector. *)
Definition consecutive (l : list Z) : list (Z * Z) := zip l (tail l).

(** The edges of a closed loop, in the direction of the loop. *)
Definition perimeter_edges (l : list Z) : res (gset (Z * Z)) :=
  b0 ← front l;
  bl ← back l;
  Ret (list_to_set (consecutive l) ∪ {[ (bl, b0) ]}).

(** [(a, b)] is an edge of the perimeter of the closed loop [l]: [b]
    follows [a], cyclically. *)
Definition on_perimeter (l : list Z) (a b : vertex) : Prop :=
  ∃ j, l !! j = Some a ∧ l !! (S j mod length l) = Some b.

(** The edges of a path, in both directions. *)
Definition both_directions (l : list Z) : gset (Z * Z) :=
  list_to_set (consecutive l) ∪ list_to_set (prod_swap <$> consecutive l).

Definition inside_loop (K : Kernel) (proj_i : list P2) (test : P2) : bool :=
  aabb_intersects K (aabb_fit K proj_i) test
  && match pointInPoly K proj_i test with
     | POINT_OUT => false
     | _ => true
     end.

(** The test point of a non-crossing path: an end that is not on the base
    loop. *)
Definition noncross_test_point (K : Kernel) (face : face_t) (base_loop : list Z)
    (store : list (list Z)) (c : crossing_data) : res P2 :=
  p ← at_ store (path c);
  fr ← front p;
  if decide ((edge_idx c).1 < length base_loop) then
    b ← at_ base_loop (edge_idx c).1;
    if decide (fr = b) then bk ← back p; Ret (project K face bk)
    else Ret (project K face fr)
  else Ret (project K face fr).

(** The paths and loops to include in the divided loop [d]. *)
Definition inclusions (K : Kernel) (face : face_t) (base_loop : list Z)
    (store : list (list Z)) (noncross : list crossing_data)
    (loops : list (list Z)) (d : list Z) : res (list (list Z)) :=
  let proj_i := map (project K face) d in
  inc1 ← for_each noncross
    (λ c inc, test ← noncross_test_point K face base_loop store c;
              p ← at_ store (path c);
              Ret (if inside_loop K proj_i test then inc ++ [p] else inc)) [];
  for_each loops
    (λ l inc, fr ← front l;
              Ret (if inside_loop K proj_i (project K face fr)
                   then inc ++ [l] else inc)) inc1.

(** The body of the last loop: the divided loop [d] is emitted as it is,
    or split again together with what it includes. *)
Definition emit_step (fuel : nat) (K : Kernel) (P : Platform) (face : face_t)
    (base_loop : list Z) (store : list (list Z)) (noncross : list crossing_data)
    (loops : list (list Z)) (d : list Z) (face_loops_out : list (list Z))
    : res (list (list Z)) :=
  inc ← inclusions K face base_loop store noncross loops d;
  if decide (length inc = 0) then Ret (face_loops_out ++ [d])
  else
    per ← perimeter_edges d;
    _ ← for_each inc (λ p (u : unit), if decide (length p = 0)
                                      then Throw Undefined else Ret tt) tt;
    let face_edges := per ∪ ⋃ (both_directions <$> inc) in
    '(face_loops, hole_loops) ← splitFace K P face face_edges [] [];
    face_loops ← (if decide (length hole_loops = 0) then Ret face_loops
                  else mergeFacesAndHoles fuel K face face_loops hole_loops);
    Ret (face_loops_out ++ face_loops).

(** [processCrossingEdges]: the loops appended to [face_loops_out] and the
    value the caller receives. *)
Definition processCrossingEdges (fuel : nat) (K : Kernel) (P : Platform)
    (face : face_t) (base_loop : list Z) (paths loops : list (list Z))
    (face_loops_out : list (list Z)) : res (bool * list (list Z)) :=
  endpoint_indices ← locate_endpoints K face base_loop paths;
  '(store, cross, noncross) ←
     crossing_list K face base_loop paths endpoint_indices;
  cross ← for_range 0 (length cross) (order_step K P face store) cross;
  divided_base_loop ←
    for_range 0 (length cross) (divide_step base_loop store cross) [];
  face_loops_out ←
    for_each divided_base_loop
      (emit_step fuel K P face base_loop store noncross loops) face_loops_out;
  Ret (flow_off_value P, face_loops_out).

(** ** Face-loop driver *)

(** [std::find(base_loop.begin(), base_loop.end(), v)]: the first position
    of [v], [None] for [end()]. *)
Definition find_index (l : list Z) (v : vertex) : option nat :=
  fst <$> list_find (λ x, x = v) l.

(** The split edges of the face that are not on the perimeter, in either
    direction. *)
Definition collect_split_edges (face_edges fse : gset (Z * Z)) : gset (Z * Z) :=
  set_map (C := gset (Z * Z)) (D := gset (Z * Z))
          (λ e : Z * Z, ordered_edge e.1 e.2)
          (filter (λ e : Z * Z, (e ∉ face_edges) ∧ ((e.2, e.1) ∉ face_edges)) fse).

(** The clean split of the base loop by one chord between the positions
    [i1 <= i2]. *)
Definition split_at_chord (base_loop : list Z) (i1 i2 : nat)
    : res (list (list Z)) :=
  let loop1_size := i2 - i1 + 1 in
  let loop2_size := length base_loop + 2 - loop1_size in
  let l1 := take (i2 + 1 - i1) (drop i1 base_loop) in
  let l2 := drop i2 base_loop ++ take (i1 + 1) base_loop in
  _ ← CARVE_ASSERT (bool_decide (length l1 = loop1_size));
  _ ← CARVE_ASSERT (bool_decide (length l2 = loop2_size));
  Ret [l1; l2].

(** The fast path of a single split edge with both ends on the base loop;
    [None] when it does not apply. *)
Definition single_chord (P : Platform) (base_loop : list Z)
    (split_edges : gset (Z * Z)) : res (option (list (list Z))) :=
  if decide (size split_edges = 1) then
    match begin_ (hash_V2 P) split_edges with
    | Some (a, b) =>
      match find_index base_loop a, find_index base_loop b with
      | Some vi1, Some vi2 =>
        r ← split_at_chord base_loop (Nat.min vi1 vi2) (Nat.max vi1 vi2);
        Ret (Some r)
      | _, _ => Ret None
      end
    | None => Throw Undefined
    end
  else Ret None.

(** The body of the loop over the closed loops when there are no paths:
    both orientations of the loop, the one of positive area to the holes. *)
Definition orient_loop (K : Kernel) (face : face_t) (l : list Z)
    (st : list (list Z) * list (list Z)) : res (list (list Z) * list (list Z)) :=
  let '(face_loops, hole_loops) := st in
  fwd ← but_last l;
  let bwd := reverse fwd in
  if Qltb 0 (signedArea K (map (project K face) bwd))
  then Ret (face_loops ++ [fwd], hole_loops ++ [bwd])
  else Ret (face_loops ++ [bwd], hole_loops ++ [fwd]).

Definition merge_if_holes (fuel : nat) (K : Kernel) (face : face_t)
    (face_loops hole_loops : list (list Z)) : res (list (list Z)) :=
  if decide (length hole_loops = 0) then Ret face_loops
  else mergeFacesAndHoles fuel K face face_loops hole_loops.

Definition generateOneFaceLoop (fuel : nat) (K : Kernel) (P : Platform)
    (face : face_t) (data : Data) : res (list (list Z)) :=
  base_loop ← assembleBaseLoop face data;
  match face_split_edges data !! face_addr face with
  | None => Ret [base_loop]
  | Some fse =>
    face_edges ← perimeter_edges base_loop;
    let split_edges := collect_split_edges face_edges fse in
    if decide (size split_edges = 0) then Ret [base_loop]
    else
      chord ← single_chord P base_loop split_edges;
      match chord with
      | Some two => Ret two
      | None =>
        '(paths, loops) ← composeEdgesIntoPaths P split_edges base_loop;
        if decide (length paths = 0) then
          '(face_loops, hole_loops) ←
             for_each loops (orient_loop K face) ([base_loop], []);
          merge_if_holes fuel K face face_loops hole_loops
        else
          '(ok, face_loops) ←
             processCrossingEdges fuel K P face base_loop paths loops [];
          if (ok : bool) then Ret face_loops
          else
            let face_edges :=
              face_edges ∪ split_edges ∪ set_map (C := gset (Z * Z)) (D := gset (Z * Z))
                                                 prod_swap split_edges in
            '(face_loops, hole_loops) ←
               splitFace K P face face_edges face_loops [];
            merge_if_holes fuel K face face_loops hole_loops
      end
  end.

(** [CSG::generateFaceLoops]: the number of generated edges and the list
    of [(face, loop)] pairs appended to [face_loops_out]. *)
Definition generateFaceLoops (fuel : nat) (K : Kernel) (P : Platform)
    (poly : list face_t) (data : Data) (face_loops_out : list (face_t * list Z))
    : res (nat * list (face_t * list Z)) :=
  for_each poly
    (λ face st,
       let '(generated_edges, face_loops_out) := st in
       face_loops ← generateOneFaceLoop fuel K P face data;
       Ret (generated_edges + sum_list (length <$> face_loops),
            face_loops_out ++ ((λ f, (face, f)) <$> face_loops)))
    (0, face_loops_out).

(** ** An exact geometry kernel

    The kernel of section 6 of the specification over the rationals.  It is
    the instance the model is run on; the general statements below hold for
    every kernel. *)

Module Exact.

(** The pairs [(l[i], l[i+1])] around the closed polygon [l]. *)
Definition cyclic_pairs {A} (l : list A) : list (A * A) :=
  zip l (tail l ++ take 1 l).

(** Modelled from the spec: [orient2d(a,b,c)] is the signed twice-area of
    the triangle [abc]. *)
Definition orient2d (a b c : P2) : Q :=
  ((b.1 - a.1) * (c.2 - a.2) - (b.2 - a.2) * (c.1 - a.1))%Q.

(** Modelled from the spec: the signed area of the glossary, half the
    sum of [x_i * y_(i+1) - x_(i+1) * y_i] over the projected cycle,
    positive for a counter-clockwise cycle. *)
Definition shoelace (l : list P2) : Q :=
  ((1 # 2) * foldr (λ e acc, (e.1.1 * e.2.2 - e.2.1 * e.1.2 + acc)%Q) 0%Q
                   (cyclic_pairs l))%Q.

(** The specification fixes the sign of the signed area twice: by the
    formula of the glossary, and by the rule that a loop of negative area
    is a face loop while face loops are counter-clockwise.  The kernel
    takes the sign as a parameter: [ccw_positive = true] is the formula
    of the glossary, [false] its opposite. *)
Definition signedArea (ccw_positive : bool) (l : list P2) : Q :=
  if ccw_positive then shoelace l else (- shoelace l)%Q.

(** Does the edge [(a, b)] cross the horizontal ray from [t] to the right? *)
Definition crosses_ray (t : P2) (e : P2 * P2) : bool :=
  let a := e.1 in
  let b := e.2 in
  negb (Bool.eqb (Qltb t.2 a.2) (Qltb t.2 b.2))
  && Qltb t.1 (a.1 + (t.2 - a.2) * (b.1 - a.1) / (b.2 - a.2))%Q.

(** Modelled from the spec: [pointInPolySimple] is the strict interior
    test, here by the parity of the crossings of a ray. *)
Definition pointInPolySimple (poly : list P2) (t : P2) : bool :=
  Nat.odd (length (filter (λ e, crosses_ray t e = true) (cyclic_pairs poly))).

Definition on_segment (t : P2) (e : P2 * P2) : bool :=
  let a := e.1 in
  let b := e.2 in
  Qeq_bool (orient2d a b t) 0
  && Qleb (Qmin a.1 b.1) t.1 && Qleb t.1 (Qmax a.1 b.1)
  && Qleb (Qmin a.2 b.2) t.2 && Qleb t.2 (Qmax a.2 b.2).

(** Modelled from the spec: [pointInPoly] classifies a point as outside,
    on the boundary or inside. *)
Definition pointInPoly (poly : list P2) (t : P2) : PointClass :=
  if existsb (on_segment t) (cyclic_pairs poly) then POINT_ON
  else if pointInPolySimple poly t then POINT_IN else POINT_OUT.

(** Modelled from the spec: [aabb2d.fit] and [aabb2d.intersects]; the
    box is kept as its least and its greatest corner. *)
Definition aabb_fit (l : list P2) : P2 * P2 :=
  match l with
  | [] => ((0%Q, 0%Q), (0%Q, 0%Q))
  | p :: l' =>
    foldr (λ q box, ((Qmin q.1 box.1.1, Qmin q.2 box.1.2),
                     (Qmax q.1 box.2.1, Qmax q.2 box.2.2))) (p, p) l'
  end.

Definition aabb_intersects (box : P2 * P2) (t : P2) : bool :=
  Qleb box.1.1 t.1 && Qleb t.1 box.2.1 && Qleb box.1.2 t.2 && Qleb t.2 box.2.2.

(** Modelled from the spec: [atan2] and [ANG] give the direction of a
    vector as an angle in [[0, 2 pi)].  The exact kernel measures angles
    along the unit diamond, where the full turn is 4 and the half turn 2:
    an increasing function of the angle, under which the opposite
    direction is still half a turn away, so that the order of the
    directions around a vertex is the one of the true angles. *)
Definition atan2 (d : P2) : Q :=
  let x := d.1 in
  let y := d.2 in
  if Qeq_bool x 0 && Qeq_bool y 0 then 0%Q
  else if Qleb 0 y then
    (if Qleb 0 x then y / (x + y) else 1 + (- x) / (- x + y))%Q
  else
    (if Qltb x 0 then 2 + (- y) / (- x - y) else 3 + x / (x - y))%Q.

Definition M_TWOPI : Q := 4%Q.
Definition M_PI : Q := 2%Q.

Definition ANG (x : Q) : Q :=
  (x - M_TWOPI * inject_Z (Qfloor (x / M_TWOPI)))%Q.

(** Modelled from the spec: [incorporateHolesIntoPolygon] returns the
    merged loop as pairs (loop index, vertex index).  This stitcher
    bridges vertex 0 of the polygon to vertex 0 of every hole in turn. *)
Definition incorporateHolesIntoPolygon (poly : list (list P2))
    : list (nat * nat) :=
  match poly with
  | [] => []
  | outer :: holes =>
    [(0, 0)]
    ++ mjoin (imap (λ k (h : list P2),
                      ((λ n, (S k, n)) <$> seq 0 (length h)) ++ [(S k, 0); (0, 0)])
                   holes)
    ++ ((λ n, (0, n)) <$> seq 1 (length outer - 1))
  end.

(** The kernel for vertices placed by [pos]. *)
Definition kernel (ccw_positive : bool) (pos : Z → P2) : Kernel :=
  Build_Kernel (λ _ v, pos v) orient2d (signedArea ccw_positive)
               pointInPolySimple
               pointInPoly aabb_fit aabb_intersects atan2 ANG M_PI M_TWOPI
               incorporateHolesIntoPolygon.

End Exact.

(** ** Notions used in the statements *)

(** The indices of a crossing after the partition loop: swapped when the
    first was the greater. *)
Definition oriented (c : crossing_data) : crossing_data :=
  if decide ((edge_idx c).2 < (edge_idx c).1)
  then {| path := path c; edge_idx := ((edge_idx c).2, (edge_idx c).1) |}
  else c.

(** The path of a crossing after the partition loop: reversed when the
    indices were swapped, and, for equal indices, when its area is
    negative. *)
Definition oriented_path (K : Kernel) (face : face_t) (c : crossing_data)
    (p : list Z) : list Z :=
  if decide ((edge_idx c).1 = (edge_idx c).2) then
    if Qltb (signedArea K (map (project K face) (tail p))) 0 then reverse p else p
  else if decide ((edge_idx c).2 < (edge_idx c).1) then reverse p
  else p.

(** What the search for the end points establishes for the entries of
    [endpoint_indices]: entry [i] refers to the path [i], and an index is
    a position of the base loop or its length [N]. *)
Definition located (paths : list (list Z)) (N : nat) (ei : list crossing_data)
    : Prop :=
  length ei = length paths
  ∧ ∀ i c, ei !! i = Some c →
           path c = i ∧ (edge_idx c).1 ≤ N ∧ (edge_idx c).2 ≤ N.

(** Where the end point [f] of the path [p] is attached once the
    positions below [m] of the base loop were searched: nowhere (the index
    is still [N]) when [f] does not occur there; otherwise at an
    occurrence [cur] of [f] after which no occurrence passed the angle
    test, and which is the first occurrence or passed the test itself. *)
Definition attached (K : Kernel) (face : face_t) (base_loop p : list Z)
    (f : vertex) (m cur : nat) : Prop :=
  (cur = length base_loop ∧ ∀ k, k < m → base_loop !! k ≠ Some f)
  ∨ (cur < m ∧ base_loop !! cur = Some f
     ∧ (∀ k, cur < k < m → base_loop !! k = Some f →
             attach_here K face base_loop k p = Ret false)
     ∧ ((∀ k, k < cur → base_loop !! k ≠ Some f)
        ∨ attach_here K face base_loop cur p = Ret true)).

(** The state of the search when the rows below [i] are done for every
    path, and row [i] for the paths below [j]. *)
Definition searched (K : Kernel) (face : face_t) (base_loop : list Z)
    (paths : list (list Z)) (i j : nat) (ei : list crossing_data) : Prop :=
  length ei = length paths
  ∧ ∀ k c p f b, ei !! k = Some c → paths !! k = Some p →
      head p = Some f → last p = Some b →
      let m := if decide (k < j) then S i else i in
      attached K face base_loop p f m (edge_idx c).1
      ∧ attached K face base_loop p b m (edge_idx c).2.

(** The cached projections of the graph are those of the face. *)
Definition proj_ok (K : Kernel) (face : face_t) (graph : Graph.graph_t) : Prop :=
  ∀ v ge, graph !! v = Some ge → Graph.proj ge = project K face v.

(** The sign of the area of a loop under the projector of the face. *)
Definition negative_area (K : Kernel) (face : face_t) (l : list Z) : Prop :=
  (signedArea K (map (project K face) l) < 0)%Q.

Definition nonnegative_area (K : Kernel) (face : face_t) (l : list Z) : Prop :=
  (0 <= signedArea K (map (project K face) l))%Q.

(** The containing-face lists are those of a nesting: the faces have a
    depth [level] such that the faces that contain a hole have the depths
    [0, 1, ..., d-1], one each, and every face that contains a hole is the
    innermost container of some hole. *)
Definition nested (level : nat → nat) (containing_faces : list (list nat)) : Prop :=
  (∀ l, l ∈ containing_faces → level <$> l ≡ₚ seq 0 (length l))
  ∧ (∀ l f, l ∈ containing_faces → f ∈ l →
       ∃ l', l' ∈ containing_faces ∧ f ∈ l' ∧ length l' = S (level f)).

(** The lists after [r] rounds of the assignment under a nesting, and the
    number of holes that still wait for their face. *)
Definition after_rounds (level : nat → nat) (r : nat)
    (containing_faces : list (list nat)) : list (list nat) :=
  (λ l, filter (λ f, r ≤ level f) l) <$> containing_faces.

Definition waiting (r : nat) (containing_faces : list (list nat)) : nat :=
  length (filter (λ l, r < length l) containing_faces).

(** The neighbours of [a] in the graph; none for a vertex without entry. *)
Definition adj (g : VVSMap) (a : vertex) : gset Z := default ∅ (g !! a).

(** The graph is well formed: no entry is empty, a link is recorded at
    both of its ends, and no vertex is its own neighbour. *)
Definition wf_graph (g : VVSMap) : Prop :=
  (∀ a s, g !! a = Some s → s ≠ ∅)
  ∧ (∀ a b, b ∈ adj g a → a ∈ adj g b)
  ∧ (∀ a, a ∉ adj g a).

(** A link of the graph is recorded at both of its ends. *)
Definition sym_graph (g : VVSMap) : Prop :=
  ∀ a b, b ∈ adj g a → a ∈ adj g b.

(** Every vertex of the graph that is not an end point has two
    neighbours, except the vertex [v] a walk stands on, which has one. *)
Definition degrees_ok (g : VVSMap) (endpoints : gset Z) (v : vertex) : Prop :=
  ∀ a, a ∉ endpoints → is_Some (g !! a) →
       size (adj g a) = if decide (a = v) then 1 else 2.

(** Between two walks: every vertex of the graph that is not an end point
    has two neighbours. *)
Definition all_degree_2 (g : VVSMap) (endpoints : gset Z) : Prop :=
  ∀ a, a ∉ endpoints → is_Some (g !! a) → size (adj g a) = 2.

(** During the walk of a closed loop from [s] that stands on [v]: both are
    in the graph, and a vertex of the graph has two neighbours, except [s]
    and [v], which have one once the walk has left [s]. *)
Definition loop_degrees (g : VVSMap) (s v : vertex) : Prop :=
  is_Some (g !! s) ∧ is_Some (g !! v)
  ∧ ∀ a, is_Some (g !! a) →
         size (adj g a) = if decide (s ≠ v ∧ (a = s ∨ a = v)) then 1 else 2.

(** The undirected edges that a path or a closed loop walks, as ordered
    pairs, in the order of the walk. *)
Definition walked_edges (p : list Z) : list (Z * Z) :=
  (λ e : Z * Z, ordered_edge e.1 e.2) <$> consecutive p.

(** The bookkeeping of the composer: the links of the initial graph [g0]
    are those still in [g] and, in both directions, the steps [steps]
    walked so far; no step is still in [g], and no undirected edge was
    walked twice. *)
Definition accounted (g0 g : VVSMap) (steps : list (Z * Z)) : Prop :=
  links g0 = links g ∪ list_to_set steps ∪ list_to_set (prod_swap <$> steps)
  ∧ (∀ e, e ∈ steps → (e ∉ links g) ∧ (prod_swap e ∉ links g))
  ∧ NoDup ((λ e : Z * Z, ordered_edge e.1 e.2) <$> steps).

(** [Some s] for an adjacency that stays in the graph, [None] for one that
    is erased because it became empty. *)
Definition kept (s : gset Z) : option (gset Z) :=
  if decide (size s = 0) then None else Some s.

(** The order of the sorted crossing list in the words of the
    specification: first index ascending, ties by the second descending. *)
Definition crossing_le (a b : crossing_data) : Prop :=
  (edge_idx a).1 < (edge_idx b).1
  ∨ ((edge_idx a).1 = (edge_idx b).1 ∧ (edge_idx b).2 ≤ (edge_idx a).2).

(** ** Scenarios

    A square face with the vertices [1..4] at (0,0), (12,0), (12,12) and
    (0,12), and intersection vertices inside it and on its perimeter. *)

Module Scenario.

Definition pt (x y : Z) : P2 := (inject_Z x, inject_Z y).

Definition pos (v : Z) : P2 :=
  match v with
  | 1 => pt 0 0 | 2 => pt 12 0 | 3 => pt 12 12 | 4 => pt 0 12
  | 5 => pt 2 2 | 6 => pt 10 2 | 7 => pt 10 10 | 8 => pt 2 10
  | 9 => pt 4 4 | 10 => pt 8 4 | 11 => pt 8 8 | 12 => pt 4 8
  | 13 => pt 2 6 | 14 => pt 2 2 | 15 => pt 6 2 | 16 => pt 6 6
  | 17 => pt 8 4 | 18 => pt 8 8 | 19 => pt 4 8 | 20 => pt 4 4
  | 21 => pt 3 3 | 22 => pt 9 9 | 23 => pt 8 4 | 24 => pt 6 0
  | 25 => pt 11 4 | 26 => pt 6 1
  | _ => pt 0 0
  end%Z.

(** The kernel with the signed area of the glossary, and the one with
    the opposite sign. *)
Definition K_glossary : Kernel := Exact.kernel true pos.
Definition K_opposite : Kernel := Exact.kernel false pos.

Definition platform (flow_off : bool) : Platform :=
  {| hash_vertex := λ v, v;
     hash_V2 := λ e, (e.1 * 1000 + e.2)%Z;
     temp_path_first := false;
     flow_off_value := flow_off |}.

Definition edge (n a b : Z) : edge_t := {| edge_addr := n; v1 := a; v2 := b |}.

Definition square : face_t :=
  {| face_addr := 100;
     vertices := [1; 2; 3; 4]%Z;
     edges := [edge 101 1 2; edge 102 2 3; edge 103 3 4; edge 104 4 1] |}.

(** The square with the vertex 2 visited twice: a triangular notch
    [2, 21, 22] is cut out of it. *)
Definition notched : face_t :=
  {| face_addr := 200;
     vertices := [1; 2; 21; 22; 2; 3; 4]%Z;
     edges := [edge 201 1 2; edge 202 2 21; edge 203 21 22; edge 204 22 2;
               edge 205 2 3; edge 206 3 4; edge 207 4 1] |}.

Definition split (f : face_t) (fse : gset (Z * Z)) : Data :=
  {| vmap := ∅; divided_edges := ∅;
     face_split_edges := {[ face_addr f := fse ]} |}.

Definition untouched : Data :=
  {| vmap := ∅; divided_edges := ∅; face_split_edges := ∅ |}.

(** The edge from 1 to 2 is divided at the vertex 24; the edge from 4 to
    1 is stored from 1 to 4 and divided at 30 and 31. *)
Definition divided_face : face_t :=
  {| face_addr := 300;
     vertices := [1; 2; 3; 4]%Z;
     edges := [edge 101 1 2; edge 102 2 3; edge 103 3 4; edge 104 1 4] |}.

Definition divided : Data :=
  {| vmap := ∅;
     divided_edges := {[ 101%Z := [24%Z]; 104%Z := [30%Z; 31%Z] ]};
     face_split_edges := ∅ |}.

Definition chord : gset (Z * Z) := {[ (2, 4)%Z ]}.
Definition inner_square : gset (Z * Z) :=
  {[ (5, 6); (6, 7); (7, 8); (5, 8) ]}%Z.
Definition nested_squares : gset (Z * Z) :=
  {[ (5, 6); (6, 7); (7, 8); (5, 8); (9, 10); (10, 11); (11, 12); (9, 12) ]}%Z.
Definition touching_triangle : gset (Z * Z) :=
  {[ (2, 21); (21, 22); (22, 2) ]}%Z.
Definition overlapping_squares : gset (Z * Z) :=
  {[ (13, 14); (14, 15); (15, 16); (13, 16);
     (17, 18); (18, 19); (19, 20); (17, 20) ]}%Z.
Definition diagonal_both_ways : gset (Z * Z) :=
  {[ (1, 2); (2, 3); (3, 4); (4, 1); (2, 4); (4, 2) ]}%Z.

End Scenario.

(** * Properties *)

(** ** The error monad and the loop combinators *)

Lemma bind_Ret {A B} (m : res A) (f : A → res B) (b : B) :
  m ≫= f = Ret b ↔ ∃ a, m = Ret a ∧ f a = Ret b.
Proof.
  destruct m as [a|e]; simpl.
  - split; [eauto | intros (a' & H & ?); by inversion H; subst].
  - split; [done | intros (a' & H & ?); done].
Qed.

Lemma at_Ret {A} (l : list A) (i : nat) (x : A) :
  at_ l i = Ret x ↔ l !! i = Some x.
Proof. unfold at_. destruct (l !! i); split; intros H; by inversion H. Qed.

Lemma Ret_bind {A B} (a : A) (f : A → res B) : Ret a ≫= f = f a.
Proof. done. Qed.

Lemma Throw_bind {A B} (e : error) (f : A → res B) : Throw e ≫= f = Throw e.
Proof. done. Qed.

Lemma for_range_S {St} (body : nat → St → res St) (n lo : nat) (st : St) :
  for_range lo (S n) body st = body lo st ≫= for_range (S lo) n body.
Proof. done. Qed.

Lemma for_range_snoc {St} (body : nat → St → res St) (n lo : nat) (st : St) :
  for_range lo (S n) body st = for_range lo n body st ≫= body (lo + n).
Proof.
  revert lo st. induction n as [|n IH]; intros lo st.
  - rewrite for_range_S. simpl. replace (lo + 0) with lo by lia.
    by destruct (body lo st).
  - rewrite for_range_S. rewrite (for_range_S body n).
    destruct (body lo st) as [s1|e] eqn:E.
    + rewrite !Ret_bind, IH. by replace (S lo + n) with (lo + S n) by lia.
    + by rewrite !Throw_bind.
Qed.

(** An invariant of a [for] loop that holds at the start and is kept by
    every iteration that returns holds when the loop returns. *)
Lemma for_range_inv {St} (Inv : nat → St → Prop) (body : nat → St → res St)
    (n lo : nat) (st st' : St) :
  Inv lo st →
  (∀ i s s', lo ≤ i < lo + n → Inv i s → body i s = Ret s' → Inv (S i) s') →
  for_range lo n body st = Ret st' → Inv (lo + n) st'.
Proof.
  revert lo st. induction n as [|n IH]; intros lo st H0 Hstep Hrun.
  - simpl in Hrun. inversion Hrun; subst. by replace (lo + 0) with lo by lia.
  - simpl in Hrun. apply bind_Ret in Hrun as (s1 & Hb & Hrest).
    replace (lo + S n) with (S lo + n) by lia.
    apply (IH (S lo) s1); [| |done].
    + apply (Hstep lo st s1); [lia|done|done].
    + intros i s s' Hi. apply Hstep. lia.
Qed.

Lemma for_each_inv {A St} (Inv : St → Prop) (body : A → St → res St)
    (xs : list A) (st st' : St) :
  Inv st →
  (∀ x s s', x ∈ xs → Inv s → body x s = Ret s' → Inv s') →
  for_each xs body st = Ret st' → Inv st'.
Proof.
  revert st. induction xs as [|x xs IH]; intros st H0 Hstep Hrun.
  - simpl in Hrun. by inversion Hrun; subst.
  - simpl in Hrun. apply bind_Ret in Hrun as (s1 & Hb & Hrest).
    apply (IH s1); [| |done].
    + apply (Hstep x st s1); [left|done|done].
    + intros y s s' Hy. apply Hstep. by right.
Qed.

(** ** Base-loop assembler *)

Lemma assembleBaseLoop_step_block face data j vj e base_loop :
  vertices face !! j = Some vj → edges face !! j = Some e →
  assembleBaseLoop_step face data j base_loop
  = Ret (base_loop ++ base_block data vj e).
Proof.
  intros Hv He. unfold assembleBaseLoop_step, base_block, perimeter_insertion.
  apply at_Ret in Hv, He. rewrite Hv. simpl. rewrite He. simpl.
  destruct (divided_edges data !! edge_addr e) as [ev|]; [|done].
  destruct (decide (v1 e = vj)); by rewrite <- app_assoc.
Qed.

Lemma assembleBaseLoop_from face data n lo acc :
  lo + n ≤ length (vertices face) → lo + n ≤ length (edges face) →
  for_range lo n (assembleBaseLoop_step face data) acc
  = Ret (acc ++ mjoin (zip_with (base_block data)
                         (take n (drop lo (vertices face)))
                         (take n (drop lo (edges face))))).
Proof.
  revert lo acc. induction n as [|n IH]; intros lo acc Hv He.
  - simpl. by rewrite app_nil_r.
  - destruct (lookup_lt_is_Some_2 (vertices face) lo) as [vj Hvj]; [lia|].
    destruct (lookup_lt_is_Some_2 (edges face) lo) as [e Hej]; [lia|].
    simpl. rewrite (assembleBaseLoop_step_block _ _ _ vj e) by done. simpl.
    rewrite IH by lia.
    rewrite (drop_S _ _ _ Hvj), (drop_S _ _ _ Hej). simpl.
    by rewrite <- app_assoc.
Qed.

Lemma assembleBaseLoop_blocks face data :
  length (edges face) = length (vertices face) →
  assembleBaseLoop face data
  = Ret (mjoin (zip_with (base_block data) (vertices face) (edges face))).
Proof.
  intros Hlen. unfold assembleBaseLoop.
  rewrite assembleBaseLoop_from by lia. simpl.
  rewrite !drop_0, firstn_all. rewrite <- Hlen at 1. by rewrite firstn_all.
Qed.

Lemma blocks_length data vs es :
  length es = length vs →
  length vs ≤ length (mjoin (zip_with (base_block data) vs es)).
Proof.
  revert es. induction vs as [|v vs IH]; intros [|e es] Hlen; simpl in *; try lia.
  rewrite length_app. specialize (IH es ltac:(lia)). lia.
Qed.

Lemma blocks_Permutation data vs es :
  length es = length vs →
  mjoin (zip_with (base_block data) vs es)
  ≡ₚ (map_vertex (vmap data) <$> vs) ++ mjoin (perimeter_insertion data <$> zip vs es).
Proof.
  revert es. induction vs as [|v vs IH]; intros [|e es] Hlen; simpl in *; try done.
  rewrite IH by lia. unfold base_block. simpl. f_equiv.
  rewrite !app_assoc. f_equiv. apply Permutation_app_comm.
Qed.

(** C5: the base loop of a face (with as many edges as vertices) is the
    concatenation, along the vertex/edge cycle, of the blocks
    [vmap(F.vertex[j])] followed by the intersection vertices of [F.edge[j]],
    forward when [edge.v1 == F.vertex[j]] and reversed otherwise; it holds
    the mapped face vertices and every inserted intersection vertex once
    each (it is a permutation of their list, so it repeats no vertex when
    they are pairwise different), and it has at least |F| elements. *)
Theorem assembleBaseLoop_spec (face : face_t) (data : Data) :
  length (edges face) = length (vertices face) →
  ∃ base_loop,
    assembleBaseLoop face data = Ret base_loop
    ∧ base_loop = mjoin (zip_with (base_block data) (vertices face) (edges face))
    ∧ (∀ j vj e, vertices face !! j = Some vj → edges face !! j = Some e →
         base_block data vj e
         = map_vertex (vmap data) vj
           :: match divided_edges data !! edge_addr e with
              | Some ev_vec => if decide (v1 e = vj) then ev_vec else reverse ev_vec
              | None => []
              end)
    ∧ base_loop ≡ₚ (map_vertex (vmap data) <$> vertices face)
                   ++ mjoin (perimeter_insertion data <$> zip (vertices face) (edges face))
    ∧ (NoDup ((map_vertex (vmap data) <$> vertices face)
              ++ mjoin (perimeter_insertion data <$> zip (vertices face) (edges face)))
       → NoDup base_loop)
    ∧ length (vertices face) ≤ length base_loop.
Proof.
  intros Hlen. eexists. split; [by apply assembleBaseLoop_blocks|].
  split; [done|]. split.
  { intros j vj e _ _. unfold base_block, perimeter_insertion. simpl.
    by destruct (divided_edges data !! edge_addr e). }
  split; [by apply blocks_Permutation|]. split.
  - intros Hnd. by rewrite blocks_Permutation.
  - by apply blocks_length.
Qed.

(** ** Perimeter edges *)

Lemma elem_of_consecutive (l : list Z) (a b : Z) :
  (a, b) ∈ consecutive l ↔ ∃ j, l !! j = Some a ∧ l !! S j = Some b.
Proof.
  unfold consecutive. induction l as [|x l IH]; simpl.
  - split; [by intros ?%elem_of_nil | by intros (j & ? & ?)].
  - destruct l as [|y l]; simpl in *.
    + split; [by intros ?%elem_of_nil|]. intros ([|j] & ? & ?); done.
    + rewrite elem_of_cons, IH. split.
      * intros [[= -> ->] | (j & ? & ?)]; [by exists 0 | by exists (S j)].
      * intros ([|j] & Ha & Hb); simpl in *; [left; congruence | right; eauto].
Qed.

Lemma head_lookup_0 {A} (l : list A) : head l = l !! 0.
Proof. by destruct l. Qed.

Lemma front_Ret {A} (l : list A) (x : A) : front l = Ret x ↔ l !! 0 = Some x.
Proof.
  unfold front. rewrite head_lookup_0.
  destruct (l !! 0); split; intros H; by inversion H.
Qed.

Lemma back_Ret {A} (l : list A) (x : A) :
  back l = Ret x ↔ l !! (length l - 1) = Some x.
Proof.
  unfold back. rewrite last_lookup. replace (pred (length l)) with (length l - 1) by lia.
  destruct (l !! (length l - 1)); split; intros H; by inversion H.
Qed.

Lemma perimeter_edges_nonempty (l : list Z) :
  l ≠ [] → ∃ pe, perimeter_edges l = Ret pe.
Proof.
  intros Hne. unfold perimeter_edges, front, back.
  destruct l as [|x l]; [done|]. simpl.
  destruct (last (x :: l)) eqn:E; [by eexists|].
  by apply last_None in E.
Qed.

Lemma perimeter_edges_spec (l : list Z) (pe : gset (Z * Z)) (a b : Z) :
  perimeter_edges l = Ret pe → (a, b) ∈ pe ↔ on_perimeter l a b.
Proof.
  unfold perimeter_edges. intros H.
  apply bind_Ret in H as (b0 & H0%front_Ret & H).
  apply bind_Ret in H as (bl & Hl%back_Ret & H). inversion H; subst; clear H.
  assert (0 < length l) by (apply lookup_lt_Some in H0; lia).
  rewrite elem_of_union, elem_of_list_to_set, elem_of_consecutive, elem_of_singleton.
  unfold on_perimeter. split.
  - intros [(j & Ha & Hb) | [= -> ->]].
    + exists j. split; [done|].
      rewrite Nat.mod_small; [done|]. apply lookup_lt_Some in Hb. lia.
    + exists (length l - 1). split; [done|].
      replace (S (length l - 1)) with (length l) by lia.
      by rewrite Nat.Div0.mod_same.
  - intros (j & Ha & Hb). pose proof (lookup_lt_Some _ _ _ Ha) as Hj.
    destruct (decide (S j = length l)) as [E|NE].
    + right. rewrite E, Nat.Div0.mod_same in Hb.
      replace j with (length l - 1) in Ha by lia. congruence.
    + left. exists j. rewrite Nat.mod_small in Hb by lia. done.
Qed.

Lemma collect_split_edges_empty (pe fse : gset (Z * Z)) :
  (∀ a b, (a, b) ∈ fse → (a, b) ∈ pe ∨ (b, a) ∈ pe) →
  collect_split_edges pe fse = ∅.
Proof.
  intros H. unfold collect_split_edges. apply set_eq. intros e.
  rewrite elem_of_map. split; [|by intros ?%not_elem_of_empty].
  intros ([a b] & _ & [Hn1 Hn2]%elem_of_filter). simpl in *.
  destruct Hn1 as [Hn1 Hn1']. destruct (H a b Hn2); done.
Qed.

Lemma assembleBaseLoop_nonempty face data base_loop :
  assembleBaseLoop face data = Ret base_loop →
  length (edges face) = length (vertices face) →
  vertices face ≠ [] → base_loop ≠ [].
Proof.
  intros Hb Hlen Hne. rewrite assembleBaseLoop_blocks in Hb by done.
  inversion Hb; subst. intros E.
  pose proof (blocks_length data (vertices face) (edges face) Hlen) as Hl.
  rewrite E in Hl. destruct (vertices face); simpl in *; [done|lia].
Qed.

Lemma generate_no_entry fuel K P face data base_loop :
  assembleBaseLoop face data = Ret base_loop →
  face_split_edges data !! face_addr face = None →
  generateOneFaceLoop fuel K P face data = Ret [base_loop].
Proof.
  intros Hb Hnone. unfold generateOneFaceLoop. rewrite Hb, Ret_bind.
  by rewrite Hnone.
Qed.

Lemma generate_no_split_edges fuel K P face data base_loop fse pe :
  assembleBaseLoop face data = Ret base_loop →
  face_split_edges data !! face_addr face = Some fse →
  perimeter_edges base_loop = Ret pe →
  collect_split_edges pe fse = ∅ →
  generateOneFaceLoop fuel K P face data = Ret [base_loop].
Proof.
  intros Hb Hfse Hpe Hempty. unfold generateOneFaceLoop.
  rewrite Hb, Ret_bind, Hfse, Hpe, Ret_bind, Hempty. by rewrite size_empty.
Qed.

(** C3: for a face with as many edges as vertices, when the face has no
    entry in [face_split_edges], or when it has one, the face has a vertex
    and every entry is an edge of the perimeter of the base loop in one of
    the two directions, [generateOneFaceLoop] returns the base loop as its
    only loop. *)
Theorem generateOneFaceLoop_unsplit (fuel : nat) (K : Kernel) (P : Platform)
    (face : face_t) (data : Data) :
  length (edges face) = length (vertices face) →
  ∃ base_loop,
    assembleBaseLoop face data = Ret base_loop
    ∧ (face_split_edges data !! face_addr face = None →
       generateOneFaceLoop fuel K P face data = Ret [base_loop])
    ∧ (∀ fse, face_split_edges data !! face_addr face = Some fse →
         vertices face ≠ [] →
         (∀ a b, (a, b) ∈ fse →
                 on_perimeter base_loop a b ∨ on_perimeter base_loop b a) →
         generateOneFaceLoop fuel K P face data = Ret [base_loop]).
Proof.
  intros Hlen.
  pose proof (assembleBaseLoop_blocks face data Hlen) as Hb.
  set (base_loop := mjoin (zip_with (base_block data) (vertices face) (edges face)))
    in Hb.
  exists base_loop. split; [done|]. split.
  - by apply generate_no_entry.
  - intros fse Hfse Hne Hper.
    destruct (perimeter_edges_nonempty base_loop) as [pe Hpe].
    { by eapply assembleBaseLoop_nonempty. }
    eapply generate_no_split_edges; [done|done|done|].
    apply collect_split_edges_empty.
    intros a b Hab. rewrite !(perimeter_edges_spec base_loop pe) by done. eauto.
Qed.

(** ** The single chord *)

Lemma insert_by_nil {A} (key : A → Z) (x : A) : sort_by key [x] = [x].
Proof. done. Qed.

Lemma begin_singleton `{Countable A} (hash : A → Z) (x : A) :
  begin_ hash ({[x]} : gset A) = Some x.
Proof. unfold begin_, iteration_order. by rewrite elements_singleton. Qed.

Lemma find_index_Some (l : list Z) (v : Z) (i : nat) :
  find_index l v = Some i ↔ l !! i = Some v ∧ ∀ j, j < i → l !! j ≠ Some v.
Proof.
  unfold find_index. split.
  - intros H. apply fmap_Some in H as ([i' x] & Hf & ->). simpl.
    apply list_find_Some in Hf as (Hl & -> & Hmin). split; [done|].
    intros j Hj Hlj. by apply (Hmin j v).
  - intros [Hl Hmin]. apply fmap_Some. exists (i, v). split; [|done].
    apply list_find_Some. split; [done|]. split; [done|].
    intros j y Hy Hj ->. by apply (Hmin j).
Qed.

Lemma generate_single_chord fuel K P face data base_loop fse pe a b ia ib :
  assembleBaseLoop face data = Ret base_loop →
  face_split_edges data !! face_addr face = Some fse →
  perimeter_edges base_loop = Ret pe →
  collect_split_edges pe fse = {[ (a, b) ]} →
  find_index base_loop a = Some ia →
  find_index base_loop b = Some ib →
  generateOneFaceLoop fuel K P face data
  = Ret [take (Nat.max ia ib - Nat.min ia ib + 1) (drop (Nat.min ia ib) base_loop);
         drop (Nat.max ia ib) base_loop ++ take (Nat.min ia ib + 1) base_loop].
Proof.
  intros Hb Hfse Hpe Hsplit Hia Hib.
  set (i1 := Nat.min ia ib). set (i2 := Nat.max ia ib).
  apply find_index_Some in Hia as Hia'. destruct Hia' as [Ha _].
  apply find_index_Some in Hib as Hib'. destruct Hib' as [Hb' _].
  pose proof (lookup_lt_Some _ _ _ Ha) as Hlta.
  pose proof (lookup_lt_Some _ _ _ Hb') as Hltb.
  assert (Hi12 : i1 ≤ i2 ∧ i2 < length base_loop) by (unfold i1, i2; lia).
  unfold generateOneFaceLoop. rewrite Hb, Ret_bind, Hfse, Hpe, Ret_bind, Hsplit.
  rewrite size_singleton. simpl decide. cbv iota.
  unfold single_chord. rewrite size_singleton. simpl decide. cbv iota.
  rewrite begin_singleton, Hia, Hib.
  fold i1 i2. unfold split_at_chord. cbv zeta.
  replace (i2 + 1 - i1) with (i2 - i1 + 1) by lia.
  rewrite (bool_decide_eq_true_2 (length (take _ _) = _))
    by (rewrite length_take, length_drop; lia).
  rewrite (bool_decide_eq_true_2 (length (_ ++ _) = _))
    by (rewrite length_app, length_take, length_drop; lia).
  done.
Qed.

(** C4: when the split edges of the face that are off the perimeter are a
    single segment [(a, b)] whose end points are on the base loop, first
    at the positions [ia] and [ib], then with [i1] the smaller and [i2] the
    larger of the two [generateOneFaceLoop] returns exactly two loops: the
    stretch [base[i1..i2]] of [i2 - i1 + 1] vertices and the stretch
    [base[i2..]] followed by [base[..i1]] of [N + 2 - (i2 - i1 + 1)]
    vertices.  The first runs from [base[i1]] to [base[i2]], the second
    from [base[i2]] to [base[i1]]: the chord closes both. *)
Theorem generateOneFaceLoop_single_chord (fuel : nat) (K : Kernel) (P : Platform)
    (face : face_t) (data : Data) (base_loop : list Z)
    (fse pe : gset (Z * Z)) (a b : Z) (ia ib : nat) :
  assembleBaseLoop face data = Ret base_loop →
  face_split_edges data !! face_addr face = Some fse →
  perimeter_edges base_loop = Ret pe →
  collect_split_edges pe fse = {[ (a, b) ]} →
  find_index base_loop a = Some ia →
  find_index base_loop b = Some ib →
  let i1 := Nat.min ia ib in
  let i2 := Nat.max ia ib in
  let l1 := take (i2 - i1 + 1) (drop i1 base_loop) in
  let l2 := drop i2 base_loop ++ take (i1 + 1) base_loop in
  generateOneFaceLoop fuel K P face data = Ret [l1; l2]
  ∧ length l1 = i2 - i1 + 1
  ∧ length l2 = length base_loop + 2 - (i2 - i1 + 1)
  ∧ head l1 = base_loop !! i1 ∧ last l1 = base_loop !! i2
  ∧ head l2 = base_loop !! i2 ∧ last l2 = base_loop !! i1
  ∧ ((base_loop !! i1 = Some a ∧ base_loop !! i2 = Some b)
     ∨ (base_loop !! i1 = Some b ∧ base_loop !! i2 = Some a)).
Proof.
  intros Hb Hfse Hpe Hsplit Hia Hib i1 i2 l1 l2.
  split; [by eapply generate_single_chord|].
  apply find_index_Some in Hia as Hia'. destruct Hia' as [Ha _].
  apply find_index_Some in Hib as Hib'. destruct Hib' as [Hb' _].
  pose proof (lookup_lt_Some _ _ _ Ha) as Hlta.
  pose proof (lookup_lt_Some _ _ _ Hb') as Hltb.
  assert (Hi12 : i1 ≤ i2 ∧ i2 < length base_loop) by (unfold i1, i2; lia).
  assert (Hl1 : length l1 = i2 - i1 + 1).
  { unfold l1. rewrite length_take, length_drop. lia. }
  assert (Hl2 : length l2 = length base_loop + 2 - (i2 - i1 + 1)).
  { unfold l2. rewrite length_app, length_take, length_drop. lia. }
  split; [done|]. split; [done|].
  split.
  { unfold l1. rewrite head_lookup_0, lookup_take_lt by lia.
    rewrite lookup_drop. f_equal. lia. }
  split.
  { rewrite last_lookup, Hl1. unfold l1. rewrite lookup_take_lt by lia.
    rewrite lookup_drop. f_equal. lia. }
  split.
  { unfold l2. rewrite head_lookup_0, lookup_app_l by (rewrite length_drop; lia).
    rewrite lookup_drop. f_equal. lia. }
  split.
  { rewrite last_lookup, Hl2. unfold l2.
    rewrite lookup_app_r by (rewrite length_drop; lia).
    rewrite length_drop, lookup_take_lt by lia. f_equal. lia. }
  unfold i1, i2. destruct (Nat.le_ge_cases ia ib) as [Hle|Hle].
  - left. rewrite Nat.min_l, Nat.max_r by done. done.
  - right. rewrite Nat.min_r, Nat.max_l by done. done.
Qed.

(** ** Sorting *)

Lemma insert_sorted_Permutation {A} (lt : A → A → bool) (x : A) (l : list A) :
  insert_sorted lt x l ≡ₚ x :: l.
Proof.
  induction l as [|y l IH]; simpl; [done|].
  destruct (lt y x); [|done]. rewrite IH. apply Permutation_swap.
Qed.

Lemma std_sort_Permutation {A} (lt : A → A → bool) (l : list A) :
  std_sort lt l ≡ₚ l.
Proof.
  induction l as [|x l IH]; simpl; [done|].
  by rewrite insert_sorted_Permutation, IH.
Qed.

Section sorted.
Context {A : Type} (lt : A → A → bool).
Hypothesis lt_asym : ∀ a b, lt a b = true → lt b a = false.
Hypothesis le_trans : ∀ a b c, lt b a = false → lt c b = false → lt c a = false.

Lemma insert_sorted_sorted (x : A) (l : list A) :
  StronglySorted (λ a b, lt b a = false) l →
  StronglySorted (λ a b, lt b a = false) (insert_sorted lt x l).
Proof.
  induction 1 as [|y l Hs IH Hall]; simpl.
  - repeat constructor.
  - destruct (lt y x) eqn:E.
    + constructor; [done|].
      rewrite Forall_forall. intros z Hz.
      rewrite insert_sorted_Permutation in Hz.
      apply elem_of_cons in Hz as [->|Hz]; [by apply lt_asym|].
      rewrite Forall_forall in Hall. by apply Hall.
    + constructor; [by constructor|].
      constructor; [done|].
      rewrite Forall_forall in Hall |- *. intros z Hz.
      apply (le_trans x y z); [done|]. by apply Hall.
Qed.

Lemma std_sort_sorted (l : list A) :
  StronglySorted (λ a b, lt b a = false) (std_sort lt l).
Proof.
  induction l as [|x l IH]; simpl; [constructor|].
  by apply insert_sorted_sorted.
Qed.
End sorted.

Lemma crossing_lt_false (a b : crossing_data) :
  crossing_lt b a = false ↔ crossing_le a b.
Proof.
  unfold crossing_lt, crossing_le.
  rewrite orb_false_iff, andb_false_iff, !bool_decide_eq_false. lia.
Qed.

Lemma crossing_lt_true (a b : crossing_data) :
  crossing_lt a b = true ↔
  (edge_idx a).1 < (edge_idx b).1
  ∨ ((edge_idx a).1 = (edge_idx b).1 ∧ (edge_idx b).2 < (edge_idx a).2).
Proof.
  unfold crossing_lt.
  rewrite orb_true_iff, andb_true_iff, !bool_decide_eq_true. lia.
Qed.

Lemma StronglySorted_weaken {A} (R R' : A → A → Prop) (l : list A) :
  (∀ a b, R a b → R' a b) → StronglySorted R l → StronglySorted R' l.
Proof.
  intros HR. induction 1 as [|x l Hs IH Hall]; constructor; [done|].
  eapply Forall_impl; [done|]. intros y. apply HR.
Qed.

Lemma std_sort_crossing_sorted (l : list crossing_data) :
  StronglySorted crossing_le (std_sort crossing_lt l).
Proof.
  eapply StronglySorted_weaken; [| apply std_sort_sorted].
  - intros a b. apply crossing_lt_false.
  - intros a b. rewrite crossing_lt_true, crossing_lt_false.
    unfold crossing_le. lia.
  - intros a b c. rewrite !crossing_lt_false. unfold crossing_le. lia.
Qed.

(** ** Crossing resolver: locating and partitioning *)

(** A loop whose body always returns, on the states of an invariant that
    it keeps, returns, in a state of the invariant. *)
Lemma for_range_ind {St} (Inv : nat → St → Prop) (body : nat → St → res St)
    (n lo : nat) (st : St) :
  Inv lo st →
  (∀ i s, lo ≤ i < lo + n → Inv i s → ∃ s', body i s = Ret s' ∧ Inv (S i) s') →
  ∃ st', for_range lo n body st = Ret st' ∧ Inv (lo + n) st'.
Proof.
  revert lo st. induction n as [|n IH]; intros lo st H0 Hstep.
  - exists st. split; [done|]. by replace (lo + 0) with lo by lia.
  - destruct (Hstep lo st) as (s1 & Hb & H1); [lia|done|].
    destruct (IH (S lo) s1) as (st' & Hrun & Hinv); [done| |].
    + intros i s Hi. apply Hstep. lia.
    + exists st'. rewrite for_range_S, Hb, Ret_bind.
      split; [done|]. by replace (lo + S n) with (S lo + n) by lia.
Qed.

Lemma relocate_bound K face base_loop i p cur r :
  relocate K face base_loop i p cur = Ret r →
  i < length base_loop → cur ≤ length base_loop → r ≤ length base_loop.
Proof.
  unfold relocate. intros H Hi Hc.
  destruct (decide (cur = length base_loop)); [inversion H; lia|].
  apply bind_Ret in H as (inside & _ & H). inversion H. destruct inside; lia.
Qed.

Lemma locate_step_located K face base_loop paths i j ei ei' :
  i < length base_loop →
  locate_step K face base_loop paths i j ei = Ret ei' →
  located paths (length base_loop) ei → located paths (length base_loop) ei'.
Proof.
  intros Hi H [Hlen Hall]. unfold locate_step in H.
  apply bind_Ret in H as (p & _ & H).
  apply bind_Ret in H as (bi & _ & H).
  apply bind_Ret in H as (c & Hc%at_Ret & H).
  apply bind_Ret in H as (fr & _ & H).
  apply bind_Ret in H as (c1 & Hc1 & H).
  apply bind_Ret in H as (bk & _ & H).
  apply bind_Ret in H as (c2 & Hc2 & H).
  inversion H; subst; clear H.
  destruct (Hall j c Hc) as (Hp & H1 & H2).
  assert (path c1 = j ∧ (edge_idx c1).1 ≤ length base_loop
          ∧ (edge_idx c1).2 ≤ length base_loop) as (Hp1 & H11 & H12).
  { destruct (decide (fr = bi)); [|by inversion Hc1; subst].
    apply bind_Ret in Hc1 as (i0 & Hi0 & Hc1). inversion Hc1; subst; clear Hc1.
    apply relocate_bound in Hi0; [|done|done]. done. }
  assert (path c2 = j ∧ (edge_idx c2).1 ≤ length base_loop
          ∧ (edge_idx c2).2 ≤ length base_loop) as (Hp2 & H21 & H22).
  { destruct (decide (bk = bi)); [|by inversion Hc2; subst].
    apply bind_Ret in Hc2 as (i0 & Hi0 & Hc2). inversion Hc2; subst; clear Hc2.
    apply relocate_bound in Hi0; [|done|done]. done. }
  split; [by rewrite length_insert|].
  intros k c' Hk. destruct (decide (k = j)) as [->|Hne].
  - rewrite list_lookup_insert_eq in Hk by (apply lookup_lt_Some in Hc; lia).
    by inversion Hk; subst.
  - rewrite list_lookup_insert_ne in Hk by done. by apply Hall.
Qed.

Lemma locate_endpoints_located K face base_loop paths ei :
  locate_endpoints K face base_loop paths = Ret ei →
  located paths (length base_loop) ei.
Proof.
  unfold locate_endpoints. intros H.
  apply (for_range_inv (λ _ s, located paths (length base_loop) s)) in H; [done| |].
  - split; [by rewrite length_imap|].
    intros i c Hc. apply list_lookup_imap_Some in Hc as (p & _ & ->). simpl. lia.
  - intros i s s' Hi Hs Hrun.
    apply (for_range_inv (λ _ s, located paths (length base_loop) s)) in Hrun; [done|done|].
    intros j t t' _ Ht Hstep. eapply locate_step_located; [|done|done]. lia.
Qed.

Lemma oriented_le (c : crossing_data) :
  (edge_idx (oriented c)).1 ≤ (edge_idx (oriented c)).2.
Proof. unfold oriented. destruct (decide _); simpl; lia. Qed.

Lemma oriented_path_id (c : crossing_data) : path (oriented c) = path c.
Proof. unfold oriented. by destruct (decide _). Qed.

Lemma partition_paths_spec K face N paths ei :
  located paths N ei →
  ∃ store,
    partition_paths K face N paths ei
    = Ret (store,
           filter (λ c, (edge_idx c).2 ≠ N) (oriented <$> ei),
           filter (λ c, ¬ (edge_idx c).2 ≠ N) (oriented <$> ei))
    ∧ length store = length paths
    ∧ ∀ i c p, ei !! i = Some c → paths !! i = Some p →
               store !! i = Some (oriented_path K face c p).
Proof.
  intros [Hlen Hall]. unfold partition_paths.
  destruct (for_range_ind
    (λ i (st : list (list Z) * list crossing_data * list crossing_data),
       length st.1.1 = length paths
       ∧ st.1.2 = filter (λ c, (edge_idx c).2 ≠ N) (oriented <$> take i ei)
       ∧ st.2 = filter (λ c, ¬ (edge_idx c).2 ≠ N) (oriented <$> take i ei)
       ∧ (∀ k c p, k < i → ei !! k = Some c → paths !! k = Some p →
                   st.1.1 !! k = Some (oriented_path K face c p))
       ∧ (∀ k, i ≤ k → st.1.1 !! k = paths !! k))
    (partition_step K face N ei) (length ei) 0 (paths, [], []))
    as (st & Hrun & Hl & Hc & Hn & Hdone & _).
  - simpl. repeat split; try done. intros; lia.
  - intros i [[ps cr] ncr] Hi (Hl & Hc & Hn & Hdone & Hrest). simpl in *.
    destruct (lookup_lt_is_Some_2 ei i) as [c Hci]; [lia|].
    destruct (Hall i c Hci) as (Hpc & _).
    destruct (lookup_lt_is_Some_2 paths i) as [p Hpi]; [lia|].
    assert (Hpsi : ps !! i = Some p) by (by rewrite Hrest).
    unfold partition_step.
    apply at_Ret in Hci as Hci'. rewrite Hci', Ret_bind, Hpc.
    apply at_Ret in Hpsi as Hpsi'. rewrite Hpsi', Ret_bind.
    rewrite (take_S_r _ _ _ Hci), fmap_app, !filter_app. simpl.
    set (ps' := <[i := reverse p]> ps).
    assert (Hps' : ∀ k, k ≠ i → ps' !! k = ps !! k).
    { intros k Hk. unfold ps'. by rewrite list_lookup_insert_ne. }
    assert (Hps'i : ps' !! i = Some (reverse p)).
    { unfold ps'. apply list_lookup_insert_eq. lia. }
    assert (Hcase : ∃ ps2,
      (if decide ((edge_idx c).1 = (edge_idx c).2)
       then if Qltb (signedArea K (map (project K face) (tail p))) 0
            then (ps', c) else (ps, c)
       else if decide ((edge_idx c).2 < (edge_idx c).1)
            then (ps', {| path := i;
                          edge_idx := ((edge_idx c).2, (edge_idx c).1) |})
            else (ps, c)) = (ps2, oriented c)
      ∧ length ps2 = length paths
      ∧ ps2 !! i = Some (oriented_path K face c p)
      ∧ ∀ k, k ≠ i → ps2 !! k = ps !! k).
    { unfold oriented, oriented_path. rewrite Hpc.
      destruct (decide ((edge_idx c).1 = (edge_idx c).2)) as [E|NE].
      - rewrite decide_False by lia.
        destruct (Qltb _ 0); eexists; (split; [done|]); repeat split;
          try done; unfold ps'; by rewrite length_insert.
      - destruct (decide ((edge_idx c).2 < (edge_idx c).1));
          eexists; (split; [done|]); repeat split;
          try done; unfold ps'; by rewrite length_insert. }
    destruct Hcase as (ps2 & -> & Hl2 & Hi2 & Hrest2).
    assert (Hfin : ∀ cr' ncr',
      cr' = filter (λ c, (edge_idx c).2 ≠ N) (oriented <$> take i ei)
            ++ filter (λ c, (edge_idx c).2 ≠ N) [oriented c] →
      ncr' = filter (λ c, ¬ (edge_idx c).2 ≠ N) (oriented <$> take i ei)
             ++ filter (λ c, ¬ (edge_idx c).2 ≠ N) [oriented c] →
      ∃ s', Ret (ps2, cr', ncr') = Ret s'
        ∧ length s'.1.1 = length paths
        ∧ s'.1.2 = filter (λ c, (edge_idx c).2 ≠ N) (oriented <$> take i ei)
                   ++ filter (λ c, (edge_idx c).2 ≠ N) [oriented c]
        ∧ s'.2 = filter (λ c, ¬ (edge_idx c).2 ≠ N) (oriented <$> take i ei)
                 ++ filter (λ c, ¬ (edge_idx c).2 ≠ N) [oriented c]
        ∧ (∀ k c0 p0, k < S i → ei !! k = Some c0 → paths !! k = Some p0 →
                      s'.1.1 !! k = Some (oriented_path K face c0 p0))
        ∧ (∀ k, S i ≤ k → s'.1.1 !! k = paths !! k)).
    { intros cr' ncr' -> ->. eexists. split; [done|]. simpl.
      repeat split; try done.
      - intros k c0 p0 Hk Hc0 Hp0. destruct (decide (k = i)) as [->|Hki].
        + congruence.
        + rewrite Hrest2 by done. apply Hdone; [lia|done|done].
      - intros k Hk. rewrite Hrest2 by lia. apply Hrest. lia. }
    destruct (decide ((edge_idx (oriented c)).2 ≠ N)) as [E|E].
    + apply Hfin.
      * rewrite Hc. f_equal. rewrite filter_cons_True by done. done.
      * rewrite Hn, filter_cons_False by tauto. by rewrite app_nil_r.
    + apply Hfin.
      * rewrite Hc, filter_cons_False by done. by rewrite app_nil_r.
      * rewrite Hn. f_equal. by rewrite filter_cons_True by done.
  - destruct st as [[store cr] ncr]. simpl in *.
    rewrite firstn_all in Hc, Hn. subst. exists store.
    split; [done|]. split; [done|].
    intros i c p Hci Hpi. eapply Hdone; [|done|done].
    by apply lookup_lt_Some in Hci.
Qed.

Lemma oriented_bounds (c : crossing_data) (N : nat) :
  (edge_idx c).1 ≤ N → (edge_idx c).2 ≤ N →
  (edge_idx (oriented c)).1 ≤ N ∧ (edge_idx (oriented c)).2 ≤ N.
Proof. unfold oriented. destruct (decide _); simpl; lia. Qed.

(** C7: in [processCrossingEdges], for the end points found on a base loop
    that is not empty, the crossing list is built: it holds, besides the
    synthetic crossing, the entries whose second index is on the base loop
    after orientation; every crossing has [edge_idx[0] <= edge_idx[1]] (and
    [edge_idx[1] < N]); an entry that had [edge_idx[0] > edge_idx[1]] has
    its indices swapped and its path reversed; the synthetic crossing with
    the indices [(0, N-1)] and the path [[base_loop.front, base_loop.back]]
    is in the list; and the list is sorted by [edge_idx[0]] ascending, ties
    by [edge_idx[1]] descending. *)
Theorem crossing_list_spec (K : Kernel) (face : face_t) (base_loop : list Z)
    (paths : list (list Z)) (ei : list crossing_data) :
  base_loop ≠ [] →
  locate_endpoints K face base_loop paths = Ret ei →
  let N := length base_loop in
  let synthetic := {| path := length paths; edge_idx := (0, N - 1) |} in
  ∃ store cross noncross b0 bl,
    crossing_list K face base_loop paths ei = Ret (store, cross, noncross)
    ∧ cross ≡ₚ filter (λ c, (edge_idx c).2 ≠ N) (oriented <$> ei) ++ [synthetic]
    ∧ Forall (λ c, (edge_idx c).1 ≤ (edge_idx c).2 ∧ (edge_idx c).2 < N) cross
    ∧ (∀ i c p, ei !! i = Some c → paths !! i = Some p →
         (edge_idx c).2 < (edge_idx c).1 →
         store !! i = Some (reverse p)
         ∧ oriented c = {| path := i; edge_idx := ((edge_idx c).2, (edge_idx c).1) |})
    ∧ head base_loop = Some b0 ∧ last base_loop = Some bl
    ∧ store !! length paths = Some [b0; bl]
    ∧ synthetic ∈ cross
    ∧ StronglySorted crossing_le cross.
Proof.
  intros Hne Hloc N synthetic.
  apply locate_endpoints_located in Hloc as Hlocd. fold N in Hlocd.
  destruct (partition_paths_spec K face N paths ei Hlocd)
    as (store & Hpart & Hlen & Hstore).
  destruct (head base_loop) as [b0|] eqn:Hhead;
    [|by apply head_None in Hhead].
  assert (Hfront : front base_loop = Ret b0) by (unfold front; by rewrite Hhead).
  destruct (last base_loop) as [bl|] eqn:Hlast;
    [|by apply last_None in Hlast].
  assert (Hback : back base_loop = Ret bl) by (unfold back; by rewrite Hlast).
  assert (HN : 0 < N) by (unfold N; destruct base_loop; simpl; [done|lia]).
  exists (store ++ [[b0; bl]]), (std_sort crossing_lt
    (filter (λ c, (edge_idx c).2 ≠ N) (oriented <$> ei) ++ [synthetic])).
  eexists. exists b0, bl.
  split.
  { unfold crossing_list. fold N. rewrite Hpart, Ret_bind, Hfront, Ret_bind.
    rewrite Hback, Ret_bind. unfold synthetic. by rewrite Hlen. }
  split; [apply std_sort_Permutation|].
  split.
  { rewrite Forall_forall. intros c Hc.
    rewrite std_sort_Permutation in Hc.
    apply elem_of_app in Hc as [Hc|Hc].
    - apply list_elem_of_filter in Hc as [Hc2 Hc].
      apply list_elem_of_fmap in Hc as (c0 & -> & Hc0).
      apply list_elem_of_lookup in Hc0 as [i Hi].
      destruct Hlocd as [_ Hall]. destruct (Hall i c0 Hi) as (_ & H1 & H2).
      pose proof (oriented_le c0). pose proof (oriented_bounds c0 N H1 H2). lia.
    - apply list_elem_of_singleton in Hc as ->. simpl. lia. }
  split.
  { intros i c p Hci Hpi Hgt.
    destruct Hlocd as [_ Hall]. destruct (Hall i c Hci) as (Hp & _).
    rewrite lookup_app_l by (rewrite Hlen; by apply lookup_lt_Some in Hpi).
    rewrite (Hstore i c p Hci Hpi). unfold oriented_path, oriented.
    rewrite decide_False by lia. rewrite !decide_True by lia. by rewrite Hp. }
  split; [done|]. split; [done|].
  split.
  { rewrite lookup_app_r by lia. by rewrite Hlen, Nat.sub_diag. }
  split.
  { rewrite std_sort_Permutation. apply elem_of_app. right. by left. }
  apply std_sort_crossing_sorted.
Qed.

(** ** Crossing resolver: where an end point is attached *)

Lemma relocate_attached K face base_loop p f i cur r :
  i < length base_loop →
  base_loop !! i = Some f →
  attached K face base_loop p f i cur →
  relocate K face base_loop i p cur = Ret r →
  attached K face base_loop p f (S i) r.
Proof.
  intros Hi Hf Hatt H. unfold relocate in H.
  destruct (decide (cur = length base_loop)) as [->|Hne].
  - inversion H; subst; clear H.
    destruct Hatt as [[_ Hno] | [Hlt _]]; [|lia].
    right. split; [lia|]. split; [done|]. split; [intros; lia|]. by left.
  - apply bind_Ret in H as (inside & Hin & H). inversion H; subst; clear H.
    destruct Hatt as [[? _] | (Hlt & Hcur & Hlater & Hfirst)]; [done|].
    right. destruct inside.
    + split; [lia|]. split; [done|]. split; [intros; lia|]. by right.
    + split; [lia|]. split; [done|]. split; [|done].
      intros k Hk Hkf. destruct (decide (k = i)) as [->|]; [done|].
      apply Hlater; [lia|done].
Qed.

Lemma attached_skip K face base_loop p f i cur :
  base_loop !! i ≠ Some f →
  attached K face base_loop p f i cur →
  attached K face base_loop p f (S i) cur.
Proof.
  intros Hf [[-> Hno] | (Hlt & Hcur & Hlater & Hfirst)].
  - left. split; [done|]. intros k Hk.
    destruct (decide (k = i)) as [->|]; [done|]. apply Hno. lia.
  - right. split; [lia|]. split; [done|]. split; [|done].
    intros k Hk Hkf. destruct (decide (k = i)) as [->|]; [done|].
    apply Hlater; [lia|done].
Qed.

Lemma locate_step_searched K face base_loop paths i j ei ei' :
  i < length base_loop →
  locate_step K face base_loop paths i j ei = Ret ei' →
  searched K face base_loop paths i j ei →
  searched K face base_loop paths i (S j) ei'.
Proof.
  intros Hi H [Hlen Hall]. unfold locate_step in H.
  apply bind_Ret in H as (p & Hp%at_Ret & H).
  apply bind_Ret in H as (bi & Hbi%at_Ret & H).
  apply bind_Ret in H as (c & Hc%at_Ret & H).
  apply bind_Ret in H as (fr & Hfr%front_Ret & H).
  apply bind_Ret in H as (c1 & Hc1 & H).
  apply bind_Ret in H as (bk & Hbk%back_Ret & H).
  apply bind_Ret in H as (c2 & Hc2 & H).
  inversion H; subst; clear H.
  rewrite <- head_lookup_0 in Hfr.
  assert (Hbk' : last p = Some bk).
  { rewrite last_lookup. by replace (pred (length p)) with (length p - 1) by lia. }
  destruct (Hall j c p fr bk Hc Hp Hfr Hbk') as [Ha1 Ha2].
  rewrite decide_False in Ha1, Ha2 by lia.
  assert (attached K face base_loop p fr (S i) (edge_idx c1).1
          ∧ (edge_idx c1).2 = (edge_idx c).2) as [Hc11 Hc12].
  { destruct (decide (fr = bi)) as [->|Hne].
    - apply bind_Ret in Hc1 as (i0 & Hi0 & Hc1). inversion Hc1; subst; clear Hc1.
      simpl. split; [|done]. by eapply relocate_attached.
    - inversion Hc1; subst. split; [|done].
      apply attached_skip; [congruence|done]. }
  assert (attached K face base_loop p bk (S i) (edge_idx c2).2
          ∧ (edge_idx c2).1 = (edge_idx c1).1) as [Hc22 Hc21].
  { destruct (decide (bk = bi)) as [->|Hne].
    - apply bind_Ret in Hc2 as (i1 & Hi1 & Hc2). inversion Hc2; subst; clear Hc2.
      simpl. split; [|done]. rewrite Hc12 in Hi1. by eapply relocate_attached.
    - inversion Hc2; subst. split; [|done]. rewrite Hc12.
      apply attached_skip; [congruence|done]. }
  split; [by rewrite length_insert|].
  intros k c' p' f b Hk Hp' Hf Hb m.
  destruct (decide (k = j)) as [->|Hne].
  - rewrite list_lookup_insert_eq in Hk by (apply lookup_lt_Some in Hc; lia).
    inversion Hk; subst; clear Hk.
    assert (p' = p) as -> by congruence.
    assert (f = fr) as -> by congruence. assert (b = bk) as -> by congruence.
    unfold m. rewrite decide_True by lia. by rewrite Hc21.
  - rewrite list_lookup_insert_ne in Hk by done.
    destruct (Hall k c' p' f b Hk Hp' Hf Hb) as [H1 H2].
    unfold m. destruct (decide (k < j)).
    + rewrite decide_True by lia. done.
    + rewrite decide_False by lia. done.
Qed.

Lemma locate_endpoints_searched K face base_loop paths ei :
  locate_endpoints K face base_loop paths = Ret ei →
  searched K face base_loop paths (length base_loop) 0 ei.
Proof.
  unfold locate_endpoints. intros H.
  apply (for_range_inv (λ i s, searched K face base_loop paths i 0 s)) in H;
    [done| |].
  - split; [by rewrite length_imap|].
    intros k c p f b Hc _ _ _ m.
    apply list_lookup_imap_Some in Hc as (p' & _ & ->). simpl.
    unfold m. rewrite decide_False by lia.
    split; left; (split; [done|]); intros; lia.
  - intros i s s' Hi Hs Hrun.
    apply (for_range_inv (λ j s, searched K face base_loop paths i j s)) in Hrun.
    + destruct Hrun as [Hlen Hall]. split; [done|].
      intros k c p f b Hc Hp Hf Hb m. unfold m. rewrite decide_False by lia.
      specialize (Hall k c p f b Hc Hp Hf Hb). simpl in Hall.
      rewrite decide_True in Hall; [done|].
      apply lookup_lt_Some in Hp. lia.
    + done.
    + intros j t t' _ Ht Hstep. eapply locate_step_searched; [|done|done]. lia.
Qed.

Lemma attach_here_spec K face base_loop i p t :
  attach_here K face base_loop i p = Ret t →
  let N := length base_loop in
  ∃ a b c adj,
    base_loop !! ((i + N - 1) mod N) = Some a
    ∧ base_loop !! i = Some b
    ∧ base_loop !! ((i + 1) mod N) = Some c
    ∧ (p !! 0 = Some b ∧ p !! 1 = Some adj
       ∨ p !! 0 ≠ Some b ∧ 2 ≤ length p ∧ p !! (length p - 2) = Some adj)
    ∧ t = internalToAngle K (project K face a) (project K face b)
                          (project K face c) (project K face adj).
Proof.
  intros H N. unfold attach_here in H. fold N in H.
  apply bind_Ret in H as (a & Ha%at_Ret & H).
  apply bind_Ret in H as (b & Hb%at_Ret & H).
  apply bind_Ret in H as (c & Hc%at_Ret & H).
  apply bind_Ret in H as (p0 & Hp0%at_Ret & H).
  apply bind_Ret in H as (adj & Hadj & H).
  inversion H; subst; clear H.
  exists a, b, c, adj. repeat split; try done.
  destruct (decide (p0 = b)) as [->|Hne].
  - left. by apply at_Ret in Hadj.
  - right. destruct (decide (2 ≤ length p)); [|done].
    apply at_Ret in Hadj. split; [congruence|done].
Qed.

Lemma attached_unique K face base_loop p f m cur cur' :
  m ≤ length base_loop →
  attached K face base_loop p f m cur →
  attached K face base_loop p f m cur' → cur = cur'.
Proof.
  intros Hm [[-> Hno] | (Hlt & Hcur & Hlater & Hfirst)]
            [[-> Hno'] | (Hlt' & Hcur' & Hlater' & Hfirst')]; try done.
  - by destruct (Hno cur' Hlt').
  - by destruct (Hno' cur Hlt).
  - destruct (Nat.lt_trichotomy cur cur') as [Hc | [Hc | Hc]]; [|done|].
    + specialize (Hlater cur' ltac:(lia) Hcur').
      destruct Hfirst' as [Hf | Ht]; [by destruct (Hf cur Hc) | congruence].
    + specialize (Hlater' cur ltac:(lia) Hcur).
      destruct Hfirst as [Hf | Ht]; [by destruct (Hf cur' Hc) | congruence].
Qed.

Lemma attached_only_pass K face base_loop p f cur i :
  attached K face base_loop p f (length base_loop) cur →
  base_loop !! i = Some f →
  attach_here K face base_loop i p = Ret true →
  (∀ k, k ≠ i → base_loop !! k = Some f →
        attach_here K face base_loop k p = Ret false) →
  cur = i.
Proof.
  intros Hatt Hi Hpass Hothers.
  pose proof (lookup_lt_Some _ _ _ Hi) as Hlt.
  destruct Hatt as [[_ Hno] | (Hcur & Hf & Hlater & Hfirst)].
  { by destruct (Hno i Hlt). }
  assert (cur = i ∨ cur < i ∨ i < cur) as [?|[Hlt'|Hlt']] by lia; [done|..].
  - rewrite (Hlater i) in Hpass by (done || lia). discriminate.
  - destruct Hfirst as [Hfirst|Hfirst].
    + by destruct (Hfirst i Hlt').
    + rewrite (Hothers cur) in Hfirst by (done || lia). discriminate.
Qed.


(** ** Planar-graph splitter: the cached projections *)

Lemma set_edge_proj_ok K face graph k f :
  proj_ok K face graph → proj_ok K face (Graph.set_edge graph k f).
Proof.
  intros Hok v ge. unfold Graph.set_edge.
  destruct (decide (k.1 = v)) as [->|Hne].
  - rewrite lookup_alter_eq. intros Hge.
    apply fmap_Some in Hge as (ge0 & Hge0 & ->). simpl. by apply Hok.
  - rewrite lookup_alter_ne by done. apply Hok.
Qed.

Lemma removeEdge_proj_ok K face graph k :
  proj_ok K face graph → proj_ok K face (Graph.removeEdge graph k).
Proof.
  intros Hok v ge. unfold Graph.removeEdge.
  destruct (graph !! k.1) as [ge0|] eqn:E; [|apply Hok].
  destruct (Graph.unlink k (Graph.edges ge0)) as [|e es].
  - intros Hge. apply lookup_delete_Some in Hge as [_ Hge]. by apply Hok.
  - destruct (decide (k.1 = v)) as [<-|Hne].
    + rewrite lookup_insert_eq. intros [= <-]. simpl. by apply Hok.
    + rewrite lookup_insert_ne by done. apply Hok.
Qed.

Lemma unwind_proj_ok K face fuel graph start out graph' start' :
  Graph.unwind fuel graph start out = Ret (graph', start') →
  proj_ok K face graph → proj_ok K face graph'.
Proof.
  revert graph start. induction fuel as [|fuel IH]; intros graph start H Hok;
    [done|]. simpl in H.
  destruct (decide (start = out)); [by inversion H; subst|].
  apply bind_Ret in H as (e & _ & H).
  destruct (Graph.loop_next e); [|done].
  apply IH in H; [done|]. by apply set_edge_proj_ok.
Qed.

Lemma walk_proj_ok K face fuel graph start edge graph' start' len :
  Graph.walk fuel K graph start edge = Ret (graph', start', len) →
  proj_ok K face graph → proj_ok K face graph'.
Proof.
  revert graph edge. induction fuel as [|fuel IH]; intros graph edge H Hok;
    [done|]. cbn [Graph.walk] in H.
  apply bind_Ret in H as (e & _ & H).
  destruct (Graph.choose_out K graph e) as [out|]; [|done].
  apply bind_Ret in H as (o & _ & H).
  destruct (0 <=? Graph.visited o)%Z.
  - apply bind_Ret in H as ([g1 s1] & Hun & H).
    apply bind_Ret in H as (e1 & _ & H).
    apply bind_Ret in H as (o1 & _ & H). inversion H; subst; clear H.
    eapply unwind_proj_ok; [done|]. by apply set_edge_proj_ok.
  - apply IH in H; [done|]. by do 2 apply set_edge_proj_ok.
Qed.

Lemma extract_projected K face len graph edge loop projected
    graph' loop' projected' edge' :
  Graph.extract len graph edge loop projected
  = Ret (graph', loop', projected', edge') →
  proj_ok K face graph → projected = map (project K face) loop →
  proj_ok K face graph' ∧ projected' = map (project K face) loop'.
Proof.
  revert graph edge loop projected.
  induction len as [|len IH]; intros graph edge loop projected H Hok Hpr.
  - simpl in H. by inversion H; subst.
  - simpl in H. destruct edge as [k|]; [|done].
    apply bind_Ret in H as (e & He & H).
    apply bind_Ret in H as (p & Hp & H).
    apply IH in H; [done|by apply removeEdge_proj_ok|].
    rewrite map_app. simpl. f_equal; [done|]. f_equal.
    unfold Graph.projection in Hp.
    destruct (graph !! Graph.src e) as [ge|] eqn:E; [|done].
    inversion Hp; subst. by apply Hok.
Qed.

Lemma computeProjection_proj_ok K P face graph graph' :
  Graph.computeProjection K P face graph = Ret graph' → proj_ok K face graph'.
Proof.
  unfold Graph.computeProjection. intros H.
  eapply (for_each_inv (proj_ok K face)) in H; [done| |].
  - intros v ge Hge. rewrite map_lookup_imap in Hge.
    destruct (graph !! v) as [ge0|]; [|done]. simpl in Hge. by inversion Hge.
  - intros v g g' _ Hok Hstep.
    destruct (g !! v) as [ge|] eqn:E; [|by inversion Hstep; subst].
    apply bind_Ret in Hstep as (es & _ & Hstep). inversion Hstep; subst.
    intros w gw. destruct (decide (v = w)) as [<-|Hne].
    + rewrite lookup_insert_eq. intros [= <-]. simpl. by apply Hok.
    + rewrite lookup_insert_ne by done. apply Hok.
Qed.

(** ** Planar-graph splitter: the classification of the loops *)

Lemma splitFace_step_classifies K P face graph face_loops hole_loops
    graph' face_loops' hole_loops' :
  proj_ok K face graph →
  splitFace_step K P graph face_loops hole_loops
  = Ret (graph', face_loops', hole_loops') →
  proj_ok K face graph'
  ∧ ∃ loop,
      (negative_area K face loop
       ∧ face_loops' = face_loops ++ [loop] ∧ hole_loops' = hole_loops)
      ∨ (nonnegative_area K face loop
         ∧ face_loops' = face_loops ∧ hole_loops' = hole_loops ++ [loop]).
Proof.
  intros Hok H. unfold splitFace_step in H.
  apply bind_Ret in H as (start & _ & H).
  apply bind_Ret in H as ([[g1 start1] len] & Hwalk & H).
  destruct (len <? 0)%Z; [done|].
  apply bind_Ret in H as ([[[g2 loop] projected] edge] & Hex & H).
  apply bind_Ret in H as (_ & _ & H).
  apply walk_proj_ok with (face := face) in Hwalk;
    [|by apply set_edge_proj_ok].
  eapply extract_projected in Hex as [Hok2 Hpr]; [|done|done]. subst projected.
  unfold classify_loop in H.
  destruct (Qlt_le_dec (signedArea K (map (project K face) loop)) 0) as [Hneg|Hpos];
    inversion H; subst; clear H; (split; [done|]); exists loop; [left|right]; done.
Qed.

Lemma splitFace_loop_classifies K P face fuel graph face_loops hole_loops
    face_loops' hole_loops' :
  proj_ok K face graph →
  splitFace_loop fuel K P graph face_loops hole_loops
  = Ret (face_loops', hole_loops') →
  ∃ nf nh, face_loops' = face_loops ++ nf ∧ hole_loops' = hole_loops ++ nh
           ∧ Forall (negative_area K face) nf
           ∧ Forall (nonnegative_area K face) nh.
Proof.
  revert graph face_loops hole_loops.
  induction fuel as [|fuel IH]; intros graph face_loops hole_loops Hok H; [done|].
  simpl in H. destruct (Graph.empty graph).
  - inversion H; subst. exists [], []. by rewrite !app_nil_r.
  - apply bind_Ret in H as ([[g1 fl1] hl1] & Hstep & H).
    apply splitFace_step_classifies with (face := face) in Hstep
      as [Hok1 [loop Hcase]]; [|done].
    apply IH in H as (nf & nh & -> & -> & Hnf & Hnh); [|done].
    destruct Hcase as [(Hneg & -> & ->) | (Hpos & -> & ->)].
    + exists (loop :: nf), nh. rewrite <- app_assoc. by repeat split; try constructor.
    + exists nf, (loop :: nh). rewrite <- app_assoc. by repeat split; try constructor.
Qed.

(** C8: every closed loop that [splitFace] extracts from the graph is
    classified by the signed area of its projection under the face: one
    iteration appends the extracted loop to the face loops when the area is
    negative and to the hole loops when it is not ([>= 0]), and changes
    nothing else; so all the loops that a call of [splitFace] adds to the
    face loops have negative area and all that it adds to the hole loops
    have non-negative area. *)
Theorem splitFace_classifies (K : Kernel) (P : Platform) (face : face_t) :
  (∀ graph face_loops hole_loops graph' face_loops' hole_loops',
     proj_ok K face graph →
     splitFace_step K P graph face_loops hole_loops
     = Ret (graph', face_loops', hole_loops') →
     ∃ loop,
       (negative_area K face loop
        ∧ face_loops' = face_loops ++ [loop] ∧ hole_loops' = hole_loops)
       ∨ (nonnegative_area K face loop
          ∧ face_loops' = face_loops ∧ hole_loops' = hole_loops ++ [loop]))
  ∧ (∀ edges face_loops hole_loops face_loops' hole_loops',
       splitFace K P face edges face_loops hole_loops
       = Ret (face_loops', hole_loops') →
       ∃ nf nh, face_loops' = face_loops ++ nf ∧ hole_loops' = hole_loops ++ nh
                ∧ Forall (negative_area K face) nf
                ∧ Forall (nonnegative_area K face) nh).
Proof.
  split.
  - intros graph fl hl graph' fl' hl' Hok H.
    by destruct (splitFace_step_classifies _ _ _ _ _ _ _ _ _ Hok H).
  - intros edges fl hl fl' hl' H. unfold splitFace in H.
    apply bind_Ret in H as (graph & Hcp & H).
    apply computeProjection_proj_ok in Hcp.
    by eapply splitFace_loop_classifies.
Qed.

(** ** Hole-into-face merger: the assignment of holes to faces *)

Lemma filter_ext_in {A} (P Q : A → Prop) `{!∀ x, Decision (P x)}
    `{!∀ x, Decision (Q x)} (l : list A) :
  (∀ x, x ∈ l → (P x ↔ Q x)) → filter P l = filter Q l.
Proof.
  induction l as [|a l IH]; intros HPQ; [done|].
  rewrite !filter_cons.
  rewrite IH by (intros x Hx; apply HPQ; by right).
  destruct (decide (P a)) as [Hp|Hp], (decide (Q a)) as [Hq|Hq]; try done.
  - destruct Hq. apply HPQ; [by left|done].
  - destruct Hp. apply HPQ; [by left|done].
Qed.

Lemma filter_fmap_length {A B} (f : A → B) (P : B → Prop)
    `{!∀ x, Decision (P x)} (l : list A) :
  length (filter (λ x, P (f x)) l) = length (filter P (f <$> l)).
Proof.
  induction l as [|a l IH]; [done|]. rewrite fmap_cons, !filter_cons.
  destruct (decide (P (f a))); simpl; by rewrite IH.
Qed.

Lemma filter_seq_ge (r n : nat) :
  length (filter (λ x, r ≤ x) (seq 0 n)) = n - r.
Proof.
  induction n as [|n IH]; [done|].
  rewrite seq_S, filter_app, length_app, IH. simpl.
  rewrite filter_cons. destruct (decide (r ≤ n)); simpl; lia.
Qed.

Lemma filter_level_length (level : nat → nat) (r : nat) (l : list nat) :
  level <$> l ≡ₚ seq 0 (length l) →
  length (filter (λ f, r ≤ level f) l) = length l - r.
Proof.
  intros Hperm.
  rewrite (filter_fmap_length level (λ x, r ≤ x)), Hperm.
  apply filter_seq_ge.
Qed.

Lemma singleton_level (level : nat → nat) (r : nat) (l : list nat) (f : nat) :
  level <$> l ≡ₚ seq 0 (length l) →
  filter (λ f, r ≤ level f) l = [f] →
  level f = r ∧ length l = S r ∧ f ∈ l.
Proof.
  intros Hperm Hf.
  pose proof (filter_level_length level r l Hperm) as Hlen.
  rewrite Hf in Hlen. simpl in Hlen.
  assert (Hin : f ∈ filter (λ f, r ≤ level f) l) by (rewrite Hf; by left).
  apply list_elem_of_filter in Hin as [Hge Hin].
  assert (Hlv : level f ∈ seq 0 (length l)).
  { rewrite <- Hperm. apply list_elem_of_fmap. eauto. }
  apply elem_of_seq in Hlv. split; [lia|]. split; [lia|done].
Qed.

Lemma erase_removed_spec (removed : gset nat) (cf : list (list nat)) :
  erase_removed removed cf = (λ l, filter (λ x, x ∉ removed) l) <$> cf.
Proof.
  unfold erase_removed.
  assert (Hgen : ∀ (fs : list nat) (cf : list (list nat)),
    foldl (λ cfs f, (λ l, filter (λ x, x ≠ f) l) <$> cfs) cf fs
    = (λ l, filter (λ x, x ∉ fs) l) <$> cf).
  { clear. intros fs. induction fs as [|f fs IH]; intros cf; simpl.
    - rewrite <- (list_fmap_id cf) at 1. apply list_fmap_ext.
      intros _ l _. simpl. induction l as [|x l IHl]; [done|].
      rewrite filter_cons_True by (by intros ?%elem_of_nil). by rewrite <- IHl.
    - rewrite IH, <- list_fmap_compose. apply list_fmap_ext.
      intros _ l _. simpl. rewrite list_filter_filter.
      apply list_filter_iff. intros x. rewrite not_elem_of_cons. tauto. }
  rewrite Hgen. apply list_fmap_ext. intros _ l _.
  apply list_filter_iff. intros x. by rewrite elem_of_elements.
Qed.

Lemma waiting_split (r : nat) (cf : list (list nat)) :
  waiting r cf
  = length (filter (λ l, length l = S r) cf) + waiting (S r) cf.
Proof.
  unfold waiting. induction cf as [|l cf IH]; [done|].
  rewrite !filter_cons.
  destruct (decide (r < length l)), (decide (length l = S r)),
    (decide (S r < length l)); simpl; lia.
Qed.

Section rounds.
Context (level : nat → nat) (cf : list (list nat)) (nf : nat).
Hypothesis Hnested : nested level cf.
Hypothesis Hfaces : ∀ l f, l ∈ cf → f ∈ l → f < nf.

Lemma hook_loop (r : nat) (fh : list (list nat)) (u : Z) :
  length fh = nf →
  ∃ fh' removed,
    for_range 0 (length (after_rounds level r cf))
              (hook_step (after_rounds level r cf)) (fh, ∅, u)
    = Ret (fh', removed,
           (u - Z.of_nat (length (filter (λ l, length l = S r) cf)))%Z)
    ∧ length fh' = nf
    ∧ ∀ f, f ∈ removed ↔
           ∃ l, l ∈ cf ∧ f ∈ l ∧ level f = r ∧ length l = S r.
Proof.
  intros Hfh. destruct Hnested as [Hperm _].
  assert (Hlen : length (after_rounds level r cf) = length cf)
    by (unfold after_rounds; by rewrite length_fmap).
  destruct (for_range_ind
    (λ i (st : list (list nat) * gset nat * Z),
       length st.1.1 = nf
       ∧ st.2 = (u - Z.of_nat (length (filter (λ l, length l = S r)
                                               (take i cf))))%Z
       ∧ ∀ f, f ∈ st.1.2 ↔
              ∃ k l, k < i ∧ cf !! k = Some l ∧ f ∈ l
                     ∧ level f = r ∧ length l = S r)
    (hook_step (after_rounds level r cf))
    (length (after_rounds level r cf)) 0 (fh, ∅, u))
    as ([[fh' removed] u'] & Hrun & Hl & Hu & Hrem).
  - simpl. split; [done|]. split; [lia|].
    intros f. split; [by intros ?%not_elem_of_empty|].
    intros (k & l & ? & _); lia.
  - intros i [[fhi remi] ui] Hi (Hl & Hu & Hrem). simpl in *.
    destruct (lookup_lt_is_Some_2 cf i) as [l Hli]; [lia|].
    assert (Hlin : l ∈ cf) by (apply list_elem_of_lookup; eauto).
    assert (Hcfr : after_rounds level r cf !! i
                   = Some (filter (λ f, r ≤ level f) l)).
    { unfold after_rounds. by rewrite list_lookup_fmap, Hli. }
    unfold hook_step. apply at_Ret in Hcfr as Hcfr'. rewrite Hcfr', Ret_bind.
    rewrite (take_S_r _ _ _ Hli), filter_app, length_app.
    pose proof (filter_level_length level r l (Hperm l Hlin)) as Hll.
    destruct (filter (λ f, r ≤ level f) l) as [|f [|g rest]] eqn:Ef.
    + eexists. split; [done|]. simpl. split; [done|].
      rewrite filter_cons_False by (simpl in Hll; lia). simpl.
      split; [lia|]. intros f. rewrite Hrem. split.
      * intros (k & l' & ? & ?). exists k, l'. split; [lia|done].
      * intros (k & l' & Hk & Hl' & Hrest).
        destruct (decide (k = i)) as [->|].
        -- assert (l' = l) as -> by congruence.
           simpl in Hll. destruct Hrest as (_ & _ & ?). lia.
        -- exists k, l'. split; [lia|done].
    + destruct (singleton_level level r l f (Hperm l Hlin) Ef)
        as (Hlv & Hlen1 & Hfl).
      rewrite decide_True by (rewrite Hl; by eapply Hfaces).
      eexists. split; [done|]. simpl.
      split; [by rewrite length_alter|].
      rewrite filter_cons_True by done. simpl.
      split; [lia|]. intros f'. rewrite elem_of_union, elem_of_singleton, Hrem.
      split.
      * intros [-> | (k & l' & ? & ?)].
        -- exists i, l. split; [lia|done].
        -- exists k, l'. split; [lia|done].
      * intros (k & l' & Hk & Hl' & Hf'l & Hf'lv & Hlen').
        destruct (decide (k = i)) as [->|].
        -- left. assert (l' = l) as -> by congruence.
           assert (Hin : f' ∈ filter (λ f, r ≤ level f) l).
           { apply list_elem_of_filter. split; [lia|done]. }
           rewrite Ef in Hin. by apply list_elem_of_singleton in Hin.
        -- right. exists k, l'. split; [lia|done].
    + eexists. split; [done|]. simpl. split; [done|].
      rewrite filter_cons_False by (simpl in Hll; lia). simpl.
      split; [lia|]. intros f'. rewrite Hrem. split.
      * intros (k & l' & ? & ?). exists k, l'. split; [lia|done].
      * intros (k & l' & Hk & Hl' & Hrest).
        destruct (decide (k = i)) as [->|].
        -- assert (l' = l) as -> by congruence.
           simpl in Hll. destruct Hrest as (_ & _ & ?). lia.
        -- exists k, l'. split; [lia|done].
  - simpl in *. exists fh', removed. rewrite Hrun, Hu, Hlen, firstn_all.
    split; [done|]. split; [done|].
    intros f. rewrite Hrem. split.
    + intros (k & l & _ & Hl' & ?). exists l. split; [|done].
      apply list_elem_of_lookup; eauto.
    + intros (l & Hl' & ?). apply list_elem_of_lookup in Hl' as [k Hk].
      exists k, l. split; [|done]. apply lookup_lt_Some in Hk. lia.
Qed.

Lemma assign_round_nested (r : nat) (fh : list (list nat)) :
  length fh = nf →
  ∃ fh',
    assign_round (after_rounds level r cf) fh (Z.of_nat (waiting r cf))
    = Ret (after_rounds level (S r) cf, fh', Z.of_nat (waiting (S r) cf))
    ∧ length fh' = nf.
Proof.
  intros Hfh. destruct (hook_loop r fh (Z.of_nat (waiting r cf)) Hfh)
    as (fh' & removed & Hrun & Hl & Hrem).
  exists fh'. split; [|done].
  unfold assign_round. rewrite Hrun, Ret_bind.
  rewrite erase_removed_spec. f_equal. f_equal; [f_equal|].
  - unfold after_rounds. rewrite <- list_fmap_compose.
    apply list_fmap_ext. intros i l Hl'. simpl.
    assert (Hlin : l ∈ cf) by (apply list_elem_of_lookup; eauto).
    rewrite list_filter_filter. apply filter_ext_in.
    intros f Hf. rewrite Hrem. split.
    + intros [Hnot Hge]. destruct (decide (level f = r)) as [E|]; [|lia].
      destruct Hnot. destruct Hnested as [_ Hinner].
      destruct (Hinner l f Hlin Hf) as (l' & ? & ? & ?).
      exists l'. repeat split; try done. lia.
    + intros Hge. split; [|lia]. intros (l' & _ & _ & ? & _). lia.
  - rewrite (waiting_split r cf). lia.
Qed.

Lemma assign_holes_nested (k r : nat) (fh : list (list nat)) :
  length fh = nf →
  (∀ l, l ∈ cf → length l ≤ r + k) →
  ∃ fh', assign_holes (S k) (after_rounds level r cf) fh
                      (Z.of_nat (waiting r cf)) = Ret fh'.
Proof.
  revert r fh. induction k as [|k IH]; intros r fh Hfh Hdepth.
  - assert (waiting r cf = 0) as ->.
    { unfold waiting. apply length_zero_iff_nil.
      destruct (filter (λ l, r < length l) cf) as [|l rest] eqn:E; [done|].
      assert (Hin : l ∈ filter (λ l, r < length l) cf) by (rewrite E; by left).
      apply list_elem_of_filter in Hin as [Hlt Hin].
      specialize (Hdepth l Hin). lia. }
    simpl. eauto.
  - cbn [assign_holes].
    destruct (decide (Z.of_nat (waiting r cf) = 0%Z)); [eauto|].
    destruct (assign_round_nested r fh Hfh) as (fh1 & -> & Hfh1).
    rewrite Ret_bind. apply IH; [done|].
    intros l Hl. specialize (Hdepth l Hl). lia.
Qed.
End rounds.

Lemma after_rounds_0 (level : nat → nat) (cf : list (list nat)) :
  after_rounds level 0 cf = cf.
Proof.
  unfold after_rounds. rewrite <- (list_fmap_id cf) at 2.
  apply list_fmap_ext. intros _ l _. simpl.
  induction l as [|x l IH]; [done|].
  rewrite filter_cons_True by lia. by rewrite IH.
Qed.

Lemma waiting_0 (cf : list (list nat)) :
  length (filter (λ l, length l = 0) cf) + waiting 0 cf = length cf.
Proof.
  unfold waiting. induction cf as [|l cf IH]; [done|].
  rewrite !filter_cons.
  destruct (decide (length l = 0)), (decide (0 < length l)); simpl; lia.
Qed.

Lemma computeContainment_faces K face face_loops hole_loops cf hsv :
  computeContainment K face face_loops hole_loops = Ret (cf, hsv) →
  length cf = length hole_loops
  ∧ ∀ l f, l ∈ cf → f ∈ l → f < length face_loops.
Proof.
  unfold computeContainment. intros H.
  set (Inv := λ st : list (list nat) * gmap nat (gmap nat (nat * nat)),
         length st.1 = length hole_loops
         ∧ ∀ l f, l ∈ st.1 → f ∈ l → f < length face_loops).
  apply (for_range_inv (λ _, Inv)) in H; [done| |].
  - split; simpl; [by rewrite length_replicate|].
    intros l f Hl%elem_of_replicate. destruct Hl as [-> _].
    by intros ?%elem_of_nil.
  - intros i s s' _ Hs Hrun.
    apply (for_range_inv (λ _, Inv)) in Hrun; [done|done|].
    intros j [cf0 hsv0] [cf1 hsv1] Hj [Hlen Hall] Hstep. simpl in *.
    assert (Halter : Inv (alter (λ l, l ++ [j]) i cf0, hsv1)).
    { split; simpl; [by rewrite length_alter|].
      intros l f Hl Hf. apply list_elem_of_lookup in Hl as [k Hk].
      destruct (decide (k = i)) as [->|Hne].
      - rewrite list_lookup_alter_eq in Hk.
        apply fmap_Some in Hk as (l0 & Hl0 & ->).
        apply elem_of_app in Hf as [Hf|Hf].
        + eapply Hall; [|done]. apply list_elem_of_lookup; eauto.
        + apply list_elem_of_singleton in Hf as ->. lia.
      - rewrite list_lookup_alter_ne in Hk by done.
        eapply Hall; [|done]. apply list_elem_of_lookup; eauto. }
    assert (Hsame : Inv (cf0, hsv1)) by done.
    unfold containment_step in Hstep.
    apply bind_Ret in Hstep as (f & _ & Hstep).
    apply bind_Ret in Hstep as (h & _ & Hstep).
    apply bind_Ret in Hstep as (r & _ & Hstep).
    apply bind_Ret in Hstep as (h0 & _ & Hstep).
    destruct (shares_vertex r).
    + destruct (decide (unmatched_h_idx r ≠ (-1)%Z)).
      * apply bind_Ret in Hstep as (t & _ & Hstep).
        destruct (pointInPolySimple K _ _); by inversion Hstep; subst.
      * destruct (shares_edge r); [by inversion Hstep; subst | done].
    + destruct (pointInPolySimple K _ _); by inversion Hstep; subst.
Qed.

Lemma patch_loop_unassigned cf hsv hole_loops face_loops fl' u :
  for_range 0 (length cf) (patch_step cf hsv hole_loops)
            (face_loops, Z.of_nat (length hole_loops)) = Ret (fl', u) →
  length cf = length hole_loops →
  u = Z.of_nat (waiting 0 cf) ∧ length fl' = length face_loops.
Proof.
  intros H Hlen.
  apply (for_range_inv
    (λ i (st : list (list Z) * Z),
       st.2 = (Z.of_nat (length hole_loops)
               - Z.of_nat (length (filter (λ l, length l = 0%nat) (take i cf))))%Z
       ∧ length st.1 = length face_loops)) in H.
  - simpl in H. rewrite firstn_all in H. destruct H as [-> ?].
    split; [|done]. pose proof (waiting_0 cf). lia.
  - simpl. split; [lia|done].
  - intros i [fl0 u0] [fl1 u1] Hi [Hu Hl] Hstep. simpl in *.
    unfold patch_step in Hstep.
    apply bind_Ret in Hstep as (l & Hl'%at_Ret & Hstep).
    rewrite (take_S_r _ _ _ Hl'), filter_app, length_app, filter_cons.
    destruct (decide (length l = 0)) as [E|NE]; simpl.
    + destruct (hsv !! i) as [m|].
      * destruct (map_begin m) as [[f [hi fi]]|]; [|done].
        apply bind_Ret in Hstep as (f_loop & _ & Hstep).
        apply bind_Ret in Hstep as (h_loop & _ & Hstep).
        destruct (decide _); [|done]. inversion Hstep; subst.
        split; [lia|]. by rewrite length_insert.
      * inversion Hstep; subst. split; [lia|done].
    + inversion Hstep; subst. split; [lia|done].
Qed.


(** ** Path/loop composer: the graph *)

Lemma insert_by_Permutation {A} (key : A → Z) (x : A) (l : list A) :
  insert_by key x l ≡ₚ x :: l.
Proof.
  induction l as [|y l IH]; simpl; [done|].
  destruct (key x <=? key y)%Z; [done|]. rewrite IH. apply Permutation_swap.
Qed.

Lemma sort_by_Permutation {A} (key : A → Z) (l : list A) : sort_by key l ≡ₚ l.
Proof.
  induction l as [|x l IH]; simpl; [done|].
  by rewrite insert_by_Permutation, IH.
Qed.

Lemma elem_of_iteration_order `{Countable A} (hash : A → Z) (s : gset A) (x : A) :
  x ∈ iteration_order hash s ↔ x ∈ s.
Proof.
  unfold iteration_order. by rewrite sort_by_Permutation, elem_of_elements.
Qed.

Lemma begin_Some `{Countable A} (hash : A → Z) (s : gset A) (x : A) :
  begin_ hash s = Some x → x ∈ s.
Proof.
  unfold begin_. intros Hx. apply (elem_of_iteration_order hash).
  destruct (iteration_order hash s) as [|y l]; [done|].
  simpl in Hx. inversion Hx; subst. by left.
Qed.

Lemma begin_None `{Countable A} (hash : A → Z) (s : gset A) :
  begin_ hash s = None → s = ∅.
Proof.
  unfold begin_. intros Hx. apply set_eq. intros x.
  rewrite <- (elem_of_iteration_order hash).
  destruct (iteration_order hash s) as [|y l]; [|done].
  split; [by intros ?%elem_of_nil | by intros ?%not_elem_of_empty].
Qed.

Lemma elem_of_links (g : gmap Z (gset Z)) (a b : Z) :
  (a, b) ∈ links g ↔ b ∈ adj g a.
Proof.
  unfold links, adj. rewrite elem_of_list_to_set, list_elem_of_bind. split.
  - intros ([k s] & Hab & Hks). simpl in *.
    apply list_elem_of_fmap in Hab as (b' & [= -> ->] & Hb').
    apply elem_of_map_to_list in Hks. rewrite Hks. simpl.
    by apply elem_of_elements.
  - intros Hb. destruct (g !! a) as [s|] eqn:E; simpl in Hb;
      [|by apply not_elem_of_empty in Hb].
    exists (a, s). split.
    + simpl. apply list_elem_of_fmap. exists b. split; [done|].
      by apply elem_of_elements.
    + by apply elem_of_map_to_list.
Qed.

Lemma adj_graph_insert (g : gmap Z (gset Z)) (a b x : Z) :
  adj (graph_insert g a b) x
  = if decide (x = a) then {[b]} ∪ adj g a else adj g x.
Proof.
  unfold adj, graph_insert. destruct (decide (x = a)) as [->|Hne].
  - by rewrite lookup_insert_eq.
  - by rewrite lookup_insert_ne.
Qed.

Lemma adj_insert_pair (g : gmap Z (gset Z)) (u w a b : Z) :
  b ∈ adj (graph_insert (graph_insert g u w) w u) a
  ↔ b ∈ adj g a ∨ (a = u ∧ b = w) ∨ (a = w ∧ b = u).
Proof.
  rewrite !adj_graph_insert.
  destruct (decide (a = w)) as [Haw|Haw], (decide (w = u)) as [Hwu|Hwu],
    (decide (a = u)) as [Hau|Hau];
    rewrite ?elem_of_union, ?elem_of_singleton; subst; intuition congruence.
Qed.

Lemma graph_insert_nonempty (g : gmap Z (gset Z)) (a b : Z) :
  (∀ x s, g !! x = Some s → s ≠ ∅) →
  ∀ x s, graph_insert g a b !! x = Some s → s ≠ ∅.
Proof.
  intros Hne x s. unfold graph_insert. destruct (decide (x = a)) as [->|Hxa].
  - rewrite lookup_insert_eq. intros [= <-]. set_solver.
  - rewrite lookup_insert_ne by done. apply Hne.
Qed.

Lemma build_vertex_graph_spec (P : Platform) (E : gset (Z * Z)) :
  let g := build_vertex_graph P E in
  (∀ a b, b ∈ adj g a ↔ (a, b) ∈ E ∨ (b, a) ∈ E)
  ∧ (∀ x s, g !! x = Some s → s ≠ ∅).
Proof.
  unfold build_vertex_graph.
  assert (Hgen : ∀ (l : list (Z * Z)) (g0 : gmap Z (gset Z)),
    (∀ x s, g0 !! x = Some s → s ≠ ∅) →
    let g := foldl (λ g e, graph_insert (graph_insert g e.1 e.2) e.2 e.1) g0 l in
    (∀ a b, b ∈ adj g a ↔ b ∈ adj g0 a ∨ (a, b) ∈ l ∨ (b, a) ∈ l)
    ∧ (∀ x s, g !! x = Some s → s ≠ ∅)).
  { induction l as [|[u w] l IH]; intros g0 Hne; simpl.
    - split; [|done]. intros a b. rewrite !elem_of_nil. tauto.
    - destruct (IH (graph_insert (graph_insert g0 u w) w u)) as [Hadj Hne'].
      { by do 2 apply graph_insert_nonempty. }
      split; [|done]. intros a b. rewrite Hadj, !elem_of_cons.
      rewrite adj_insert_pair. clear. intuition congruence. }
  destruct (Hgen (iteration_order (hash_V2 P) E) ∅) as [Hadj Hne].
  { intros x s. by rewrite lookup_empty. }
  split; [|done]. intros a b. rewrite Hadj.
  rewrite !elem_of_iteration_order. unfold adj. rewrite lookup_empty. simpl.
  rewrite elem_of_empty. tauto.
Qed.

Lemma adj_Some (g : gmap Z (gset Z)) (a : Z) (s : gset Z) :
  g !! a = Some s → adj g a = s.
Proof. unfold adj. by intros ->. Qed.

Lemma adj_elem_Some (g : gmap Z (gset Z)) (a b : Z) :
  b ∈ adj g a → ∃ s, g !! a = Some s ∧ b ∈ s.
Proof.
  unfold adj. destruct (g !! a) as [s|]; simpl; [eauto|].
  by intros ?%not_elem_of_empty.
Qed.

Lemma lookup_erase_link (g : gmap Z (gset Z)) (a n x : Z) :
  erase_link g a n !! x
  = if decide (x = a) then (λ s, s ∖ {[n]}) <$> g !! a else g !! x.
Proof.
  unfold erase_link. destruct (decide (x = a)) as [->|Hne].
  - by rewrite lookup_alter_eq.
  - by rewrite lookup_alter_ne.
Qed.

Lemma lookup_erase_if_empty (g : gmap Z (gset Z)) (a x : Z) :
  erase_if_empty g a !! x
  = if decide (x = a) then g !! a ≫= kept else g !! x.
Proof.
  unfold erase_if_empty. destruct (decide (x = a)) as [->|Hne].
  - destruct (g !! a) as [s|] eqn:E; simpl; [|done].
    unfold kept. destruct (decide (size s = 0)); [apply lookup_delete_eq|done].
  - destruct (g !! a) as [s|] eqn:E; [|done].
    destruct (decide (size s = 0)); [by rewrite lookup_delete_ne|done].
Qed.

(** The graph after the link between [v] and [n] was taken, as the two
    walks do it. *)
Lemma link_step_lookup (g : gmap Z (gset Z)) (v n : Z) (sv sn : gset Z) :
  g !! v = Some sv → g !! n = Some sn → v ≠ n →
  let g2 := erase_if_empty (erase_link (erase_link g v n) n v) v in
  g2 !! n = Some (sn ∖ {[v]})
  ∧ ∀ x, (if decide (size (sn ∖ {[v]}) = 0) then delete n g2 else g2) !! x
         = if decide (x = v) then kept (sv ∖ {[n]})
           else if decide (x = n) then kept (sn ∖ {[v]})
           else g !! x.
Proof.
  intros Hv Hn Hvn g2.
  assert (Hg2 : ∀ x, g2 !! x
                     = if decide (x = v) then kept (sv ∖ {[n]})
                       else if decide (x = n) then Some (sn ∖ {[v]})
                       else g !! x).
  { intros x. unfold g2. rewrite lookup_erase_if_empty.
    destruct (decide (x = v)) as [->|Hxv].
    - rewrite !lookup_erase_link.
      rewrite decide_False by done. rewrite decide_True by done.
      by rewrite Hv.
    - rewrite !lookup_erase_link.
      destruct (decide (x = n)) as [->|Hxn].
      + rewrite decide_False by done. by rewrite Hn.
      + by rewrite decide_False by done. }
  split.
  { rewrite Hg2, decide_False by done. by rewrite decide_True. }
  intros x. destruct (decide (size (sn ∖ {[v]}) = 0)) as [E|E].
  - destruct (decide (x = n)) as [->|Hxn].
    + rewrite lookup_delete_eq, decide_False by done.
      unfold kept. by rewrite decide_True.
    + rewrite lookup_delete_ne by done. rewrite Hg2.
      destruct (decide (x = v)); [done|]. by rewrite decide_False.
  - rewrite Hg2. destruct (decide (x = v)); [done|].
    destruct (decide (x = n)); [|done]. unfold kept. by rewrite decide_False.
Qed.

Lemma adj_kept (s : gset Z) : default ∅ (kept s) = s.
Proof.
  unfold kept. destruct (decide (size s = 0)) as [E|E]; [|done].
  apply size_empty_iff in E. simpl. by apply leibniz_equiv in E.
Qed.

Lemma kept_Some (s t : gset Z) : kept s = Some t → t = s ∧ s ≠ ∅.
Proof.
  unfold kept. destruct (decide (size s = 0)) as [E|E]; [done|].
  intros [= <-]. split; [done|]. intros ->. by rewrite size_empty in E.
Qed.

Lemma link_step_adj (g g' : gmap Z (gset Z)) (v n : Z) (sv sn : gset Z) :
  g !! v = Some sv → g !! n = Some sn →
  (∀ x, g' !! x = if decide (x = v) then kept (sv ∖ {[n]})
                  else if decide (x = n) then kept (sn ∖ {[v]})
                  else g !! x) →
  ∀ a b, b ∈ adj g' a ↔ b ∈ adj g a ∧ (a, b) ≠ (v, n) ∧ (a, b) ≠ (n, v).
Proof.
  intros Hv Hn Hg' a b. unfold adj at 1. rewrite Hg'.
  destruct (decide (a = v)) as [->|Hav].
  - rewrite adj_kept, (adj_Some _ _ _ Hv), elem_of_difference, elem_of_singleton.
    split; [|intros (? & ? & ?); split; [done|congruence]].
    intros [? ?]. split; [done|]. split; [congruence|].
    intros [= -> ->]. done.
  - destruct (decide (a = n)) as [->|Han].
    + rewrite adj_kept, (adj_Some _ _ _ Hn), elem_of_difference, elem_of_singleton.
      split; [intros [? ?]; repeat split; congruence|].
      intros (? & ? & ?). split; [done|]. congruence.
    + fold (adj g a). split; [|tauto].
      intros ?. repeat split; [done|congruence|congruence].
Qed.

(** The same when the link goes from [v] to [v] itself and the adjacency
    of [v] is not left empty. *)
Lemma self_step_adj (g : gmap Z (gset Z)) (v : Z) (sv qs : gset Z) :
  g !! v = Some sv →
  erase_if_empty (erase_link (erase_link g v v) v v) v !! v = Some qs →
  size qs ≠ 0
  ∧ ∀ a b, b ∈ adj (erase_if_empty (erase_link (erase_link g v v) v v) v) a
           ↔ b ∈ adj g a ∧ (a, b) ≠ (v, v).
Proof.
  intros Hv Hq.
  assert (Hg2 : ∀ x, erase_if_empty (erase_link (erase_link g v v) v v) v !! x
                     = if decide (x = v) then kept (sv ∖ {[v]} ∖ {[v]})
                       else g !! x).
  { intros x. rewrite lookup_erase_if_empty, !lookup_erase_link.
    destruct (decide (x = v)) as [->|Hx]; [|done].
    rewrite !decide_True by done. by rewrite Hv. }
  rewrite Hg2, decide_True in Hq by done.
  apply kept_Some in Hq as [-> Hne]. split.
  { intros E%size_empty_iff. by apply leibniz_equiv in E. }
  intros a b. unfold adj at 1. rewrite Hg2.
  destruct (decide (a = v)) as [->|Hav].
  - rewrite adj_kept, (adj_Some _ _ _ Hv), !elem_of_difference, elem_of_singleton.
    split; [intros [[? ?] _]; split; [done|congruence]|].
    intros [? Hb]. repeat split; [done|congruence..].
  - fold (adj g a). split; [|tauto]. intros ?. split; [done|congruence].
Qed.

Lemma link_step_wf (g g' : gmap Z (gset Z)) (v n : Z) (sv sn : gset Z) :
  wf_graph g →
  g !! v = Some sv → g !! n = Some sn → n ∈ sv →
  (∀ x, g' !! x = if decide (x = v) then kept (sv ∖ {[n]})
                  else if decide (x = n) then kept (sn ∖ {[v]})
                  else g !! x) →
  wf_graph g'
  ∧ (∀ a b, b ∈ adj g' a ↔ b ∈ adj g a ∧ (a, b) ≠ (v, n) ∧ (a, b) ≠ (n, v)).
Proof.
  intros (Hne & Hsym & Hirr) Hv Hn Hnv Hg'.
  assert (Hvn : v ≠ n).
  { intros ->. apply (Hirr n). by rewrite (adj_Some _ _ _ Hv). }
  pose proof (link_step_adj g g' v n sv sn Hv Hn Hg') as Hadj.
  split; [|done]. split; [|split].
  - intros a s. rewrite Hg'.
    destruct (decide (a = v)); [by intros [-> ?]%kept_Some|].
    destruct (decide (a = n)); [by intros [-> ?]%kept_Some|]. apply Hne.
  - intros a b. rewrite !Hadj. intros (Hab & H1 & H2).
    split; [by apply Hsym|]. split; congruence.
  - intros a. rewrite Hadj. intros [Ha _]. by apply (Hirr a).
Qed.

(** ** Path/loop composer: the bookkeeping of the edges *)

Lemma ordered_edge_eq (a b v n : Z) :
  ordered_edge a b = ordered_edge v n ↔ (a, b) = (v, n) ∨ (a, b) = (n, v).
Proof.
  unfold ordered_edge. split.
  - intros [= H1 H2]. destruct (Z.le_ge_cases a b), (Z.le_ge_cases v n);
      [left|right|right|left]; f_equal; lia.
  - intros [[= -> ->] | [= -> ->]]; [done|]. f_equal; lia.
Qed.

Lemma consecutive_snoc (p : list Z) (v n : Z) :
  last p = Some v → consecutive (p ++ [n]) = consecutive p ++ [(v, n)].
Proof.
  unfold consecutive. induction p as [|x p IH]; [done|].
  intros Hlast. destruct p as [|y p]; simpl in *.
  - by inversion Hlast; subst.
  - f_equal. by apply IH.
Qed.

Lemma size_remove (s : gset Z) (n : Z) :
  n ∈ s → size (s ∖ {[n]}) = size s - 1.
Proof.
  intros Hn. rewrite size_difference by set_solver. by rewrite size_singleton.
Qed.

Lemma accounted_step (g0 g g' : gmap Z (gset Z)) (steps : list (Z * Z)) (v n : Z) :
  accounted g0 g steps → n ∈ adj g v → v ∈ adj g n →
  (∀ a b, b ∈ adj g' a ↔ b ∈ adj g a ∧ (a, b) ≠ (v, n) ∧ (a, b) ≠ (n, v)) →
  accounted g0 g' (steps ++ [(v, n)]) ∧ size (links g') < size (links g).
Proof.
  intros (H1 & H2 & H3) Hn Hn' Hadj.
  assert (Hnv : (n, v) ∈ links g) by (by apply elem_of_links).
  assert (Hl : ∀ e, e ∈ links g' ↔ e ∈ links g ∧ e ≠ (v, n) ∧ e ≠ (n, v)).
  { intros [a b]. rewrite !elem_of_links. apply Hadj. }
  assert (Hvn : (v, n) ∈ links g) by (by apply elem_of_links).
  split; [split; [|split]|].
  - rewrite H1. apply set_eq. intros e.
    rewrite fmap_app, !list_to_set_app_L. simpl.
    rewrite !elem_of_union, !Hl, !elem_of_singleton, !elem_of_empty.
    destruct (decide (e = (v, n))) as [->|E1]; [intuition congruence|].
    destruct (decide (e = (n, v))) as [->|E2]; [intuition congruence|].
    intuition congruence.
  - intros e He. rewrite !Hl. apply elem_of_app in He as [He|He].
    + destruct (H2 e He). tauto.
    + apply list_elem_of_singleton in He as ->. simpl. tauto.
  - rewrite fmap_app. simpl. apply NoDup_app. split; [done|].
    split; [|apply NoDup_singleton].
    intros x Hx Hx'. apply list_elem_of_singleton in Hx' as ->.
    apply list_elem_of_fmap in Hx as ([a b] & Heq & Hab). simpl in Heq.
    symmetry in Heq. apply ordered_edge_eq in Heq.
    destruct (H2 (a, b) Hab) as [Hn1 Hn2]. simpl in Hn2.
    destruct Heq as [[= -> ->] | [= -> ->]]; [done|].
    apply Hn2. by apply elem_of_links.
  - apply subset_size. split.
    + intros e. rewrite Hl. tauto.
    + intros Hsub. specialize (Hsub (v, n) Hvn). apply Hl in Hsub. tauto.
Qed.

Lemma walk_path_spec (P : Platform) (endpoints : gset Z) (g0 : gmap Z (gset Z))
    (s : Z) (steps0 : list (Z * Z)) :
  s ∈ endpoints →
  ∀ fuel g v path,
    wf_graph g → degrees_ok g endpoints v → is_Some (g !! v) →
    size (links g) < fuel →
    head path = Some s → last path = Some v →
    accounted g0 g (steps0 ++ consecutive path) →
    ∃ g' path',
      walk_path fuel P endpoints g (Some v) v path = Ret (g', path')
      ∧ wf_graph g'
      ∧ degrees_ok g' endpoints s
      ∧ (∃ b, last path' = Some b ∧ b ∈ endpoints)
      ∧ accounted g0 g' (steps0 ++ consecutive path')
      ∧ size (links g') < size (links g).
Proof.
  intros Hs. induction fuel as [|fuel IH];
    intros g v path Hwf Hdeg [sv Hv] Hfuel Hhead Hlast Hacc; [lia|].
  cbn [walk_path]. rewrite Hv.
  pose proof Hwf as (Hne & Hsym & Hirr).
  assert (Hsize : size sv ≠ 0).
  { intros E. apply size_empty_iff in E. apply leibniz_equiv in E.
    by apply (Hne v sv). }
  rewrite decide_False by done.
  destruct (begin_ (hash_vertex P) sv) as [n|] eqn:Hbegin;
    [|by apply begin_None in Hbegin; destruct (Hne v sv)].
  apply begin_Some in Hbegin.
  assert (Hnadj : n ∈ adj g v) by (by rewrite (adj_Some _ _ _ Hv)).
  destruct (adj_elem_Some g n v (Hsym v n Hnadj)) as (sn & Hn & Hvsn).
  rewrite Hn.
  assert (Hvn : v ≠ n).
  { intros ->. by apply (Hirr n). }
  destruct (link_step_lookup g v n sv sn Hv Hn Hvn) as [Hq Hg'].
  rewrite Hq.
  set (g' := if decide (size (sn ∖ {[v]}) = 0)
             then delete n (erase_if_empty (erase_link (erase_link g v n) n v) v)
             else erase_if_empty (erase_link (erase_link g v n) n v) v) in *.
  destruct (link_step_wf g g' v n sv sn Hwf Hv Hn Hbegin Hg') as [Hwf' Hadj'].
  destruct (accounted_step g0 g g' _ v n Hacc Hnadj (Hsym v n Hnadj) Hadj')
    as [Hacc' Hlt].
  rewrite <- app_assoc, <- (consecutive_snoc path v n Hlast) in Hacc'.
  assert (Hother : ∀ a, a ≠ v → a ≠ n → g' !! a = g !! a ∧ adj g' a = adj g a).
  { intros a Hav Han. rewrite (Hg' a), !decide_False by done. split; [done|].
    unfold adj. by rewrite (Hg' a), !decide_False by done. }
  assert (Hgone : v ∉ endpoints → g' !! v = None).
  { intros Hve. rewrite (Hg' v), decide_True by done.
    specialize (Hdeg v Hve (mk_is_Some _ _ Hv)).
    rewrite decide_True in Hdeg by done. rewrite (adj_Some _ _ _ Hv) in Hdeg.
    unfold kept. rewrite decide_True; [done|]. rewrite size_remove by done. lia. }
  assert (Hdeg' : ∀ w, (w = n ∨ w ∈ endpoints) →
            (n ∉ endpoints → w = n ∧ size (sn ∖ {[v]}) = 1) →
            degrees_ok g' endpoints w).
  { intros w Hw Hw' a Ha [sa Hsa].
    destruct (decide (a = v)) as [->|Hav].
    { rewrite Hgone in Hsa by done. done. }
    destruct (decide (a = n)) as [->|Han].
    - destruct (Hw' Ha) as [-> Hsz]. rewrite decide_True by done.
      unfold adj. rewrite (Hg' n), decide_False, decide_True by done.
      by rewrite adj_kept.
    - destruct (Hother a Hav Han) as [Hl Ha']. rewrite Ha'.
      rewrite decide_False by (destruct Hw as [->|Hw]; [done|congruence]).
      specialize (Hdeg a Ha). rewrite decide_False in Hdeg by done.
      apply Hdeg. rewrite <- Hl. eauto. }
  assert (Hlast' : last (path ++ [n]) = Some n) by apply last_snoc.
  assert (Hhead' : head (path ++ [n]) = Some s).
  { destruct path; [done|]. done. }
  destruct (decide (n ∈ endpoints)) as [Hnend|Hnend].
  - rewrite (bool_decide_eq_true_2 (n ∈ endpoints)) by done.
    rewrite orb_true_r.
    exists g', (path ++ [n]). split; [done|]. split; [done|].
    split; [apply Hdeg'; [by right|done]|].
    split; [eauto|]. split; [done|]. done.
  - assert (Hsn : size (sn ∖ {[v]}) = 1).
    { specialize (Hdeg n Hnend (mk_is_Some _ _ Hn)).
      rewrite decide_False in Hdeg by done.
      rewrite (adj_Some _ _ _ Hn) in Hdeg. rewrite size_remove by done. lia. }
    rewrite decide_False by lia.
    rewrite (bool_decide_eq_false_2 (n ∈ endpoints)) by done.
    rewrite (bool_decide_eq_false_2 (head (path ++ [n]) = Some n))
      by (rewrite Hhead'; intros [= ->]; done).
    rewrite (bool_decide_eq_false_2 (Some n = None)) by done.
    cbn [orb].
    assert (Hd : degrees_ok g' endpoints n) by (apply Hdeg'; [by left|done]).
    assert (His : is_Some (g' !! n)).
    { rewrite (Hg' n), decide_False, decide_True by done.
      unfold kept. rewrite decide_False by lia. eauto. }
    assert (Hf : size (links g') < fuel) by lia.
    destruct (IH g' n (path ++ [n]) Hwf' Hd His Hf Hhead' Hlast' Hacc')
      as (g'' & path'' & Hrun & Hw'' & Hd'' & Hl'' & Ha'' & Hs'').
    exists g'', path''. split; [done|]. split; [done|]. split; [done|].
    split; [done|]. split; [done|]. lia.
Qed.

Lemma compose_paths_spec (P : Platform) (g0 : gmap Z (gset Z)) :
  ∀ fuel endpoints g temp,
    wf_graph g → all_degree_2 g endpoints →
    size endpoints + size (links g) < fuel →
    accounted g0 g (mjoin (consecutive <$> temp)) →
    ∃ g' paths,
      compose_paths fuel P endpoints g temp = Ret (g', paths)
      ∧ wf_graph g' ∧ all_degree_2 g' ∅
      ∧ accounted g0 g' (mjoin (consecutive <$> paths)).
Proof.
  induction fuel as [|fuel IH]; intros endpoints g temp Hwf Hdeg Hfuel Hacc; [lia|].
  cbn [compose_paths].
  destruct (begin_ (hash_vertex P) endpoints) as [v|] eqn:Hbegin.
  - apply begin_Some in Hbegin.
    destruct (g !! v) as [sv|] eqn:Hv.
    + assert (Hdegv : degrees_ok g endpoints v).
      { intros a Ha Hsa. rewrite decide_False by congruence. by apply Hdeg. }
      assert (Hacc0 : accounted g0 g (mjoin (consecutive <$> temp)
                                      ++ consecutive [v])).
      { unfold consecutive at 2. simpl. by rewrite app_nil_r. }
      destruct (walk_path_spec P endpoints g0 v (mjoin (consecutive <$> temp))
                  Hbegin (S (size (links g))) g v [v] Hwf Hdegv
                  (mk_is_Some _ _ Hv) ltac:(lia) eq_refl eq_refl Hacc0)
        as (g' & path & Hrun & Hwf' & Hdeg' & (b & Hlast & Hb) & Hacc' & Hlt).
      rewrite Hrun, Ret_bind. unfold back. rewrite Hlast, Ret_bind.
      rewrite (bool_decide_eq_true_2 _ Hb). simpl CARVE_ASSERT. rewrite Ret_bind.
      apply IH; [done| |lia|].
      * intros a Ha Hsa. specialize (Hdeg' a Ha Hsa).
        by rewrite decide_False in Hdeg' by congruence.
      * rewrite fmap_app, join_app. simpl. by rewrite app_nil_r.
    + apply IH; [done| | |done].
      * intros a Ha Hsa. apply Hdeg; [|done].
        intros Hae. apply Ha. apply elem_of_difference. split; [done|].
        intros ->%elem_of_singleton. rewrite Hv in Hsa. by destruct Hsa.
      * rewrite size_difference by set_solver. rewrite size_singleton.
        assert (size endpoints ≠ 0); [|lia].
        intros E%size_empty_iff. apply (E v) in Hbegin.
        by apply not_elem_of_empty in Hbegin.
  - apply begin_None in Hbegin. subst endpoints.
    exists g, temp. done.
Qed.

Lemma walk_loop_spec (P : Platform) (g0 : gmap Z (gset Z)) (s : Z)
    (steps0 : list (Z * Z)) :
  ∀ fuel g v path,
    wf_graph g → loop_degrees g s v →
    size (links g) < fuel →
    head path = Some s → last path = Some v →
    accounted g0 g (steps0 ++ consecutive path) →
    ∃ g' path',
      walk_loop fuel P g v v path = Ret (g', path')
      ∧ wf_graph g' ∧ all_degree_2 g' ∅
      ∧ accounted g0 g' (steps0 ++ consecutive path')
      ∧ size (links g') < size (links g).
Proof.
  induction fuel as [|fuel IH];
    intros g v path Hwf (Hs & [sv Hv] & Hdeg) Hfuel Hhead Hlast Hacc; [lia|].
  cbn [walk_loop]. rewrite Hv.
  pose proof Hwf as (Hne & Hsym & Hirr).
  destruct (begin_ (hash_vertex P) sv) as [n|] eqn:Hbegin;
    [|by apply begin_None in Hbegin; destruct (Hne v sv)].
  apply begin_Some in Hbegin.
  assert (Hnadj : n ∈ adj g v) by (by rewrite (adj_Some _ _ _ Hv)).
  destruct (adj_elem_Some g n v (Hsym v n Hnadj)) as (sn & Hn & Hvsn).
  rewrite Hn.
  assert (Hvn : v ≠ n).
  { intros ->. by apply (Hirr n). }
  destruct (link_step_lookup g v n sv sn Hv Hn Hvn) as [Hq Hg'].
  rewrite Hq.
  set (g' := if decide (size (sn ∖ {[v]}) = 0)
             then delete n (erase_if_empty (erase_link (erase_link g v n) n v) v)
             else erase_if_empty (erase_link (erase_link g v n) n v) v) in *.
  destruct (link_step_wf g g' v n sv sn Hwf Hv Hn Hbegin Hg') as [Hwf' Hadj'].
  destruct (accounted_step g0 g g' _ v n Hacc Hnadj (Hsym v n Hnadj) Hadj')
    as [Hacc' Hlt].
  rewrite <- app_assoc, <- (consecutive_snoc path v n Hlast) in Hacc'.
  assert (Hother : ∀ a, a ≠ v → a ≠ n → g' !! a = g !! a ∧ adj g' a = adj g a).
  { intros a Hav Han. rewrite (Hg' a), !decide_False by done. split; [done|].
    unfold adj. by rewrite (Hg' a), !decide_False by done. }
  assert (Hszv : size sv = if decide (s ≠ v) then 1 else 2).
  { specialize (Hdeg v (mk_is_Some _ _ Hv)). rewrite (adj_Some _ _ _ Hv) in Hdeg.
    rewrite Hdeg. destruct (decide (s ≠ v)).
    - rewrite decide_True; [done|]. split; [done|]. by right.
    - rewrite decide_False; [done|]. tauto. }
  assert (Hszn : size sn = if decide (s ≠ v ∧ n = s) then 1 else 2).
  { specialize (Hdeg n (mk_is_Some _ _ Hn)). rewrite (adj_Some _ _ _ Hn) in Hdeg.
    rewrite Hdeg. destruct (decide (s ≠ v ∧ n = s)) as [[? ?]|Hno].
    - rewrite decide_True; [done|]. split; [done|]. by left.
    - rewrite decide_False; [done|]. intros [? [?|?]]; [tauto|congruence]. }
  assert (Hkv : g' !! v = if decide (s ≠ v) then None else Some (sv ∖ {[n]})).
  { rewrite (Hg' v), decide_True by done. unfold kept.
    rewrite size_remove by done. rewrite Hszv.
    destruct (decide (s ≠ v)); [by rewrite decide_True | by rewrite decide_False]. }
  assert (Hszn' : size (sn ∖ {[v]}) = if decide (s ≠ v ∧ n = s) then 0 else 1).
  { rewrite size_remove by done. rewrite Hszn.
    by destruct (decide (s ≠ v ∧ n = s)). }
  assert (Hkn : g' !! n = if decide (s ≠ v ∧ n = s) then None
                          else Some (sn ∖ {[v]})).
  { rewrite (Hg' n), decide_False, decide_True by done. unfold kept.
    rewrite Hszn'. by destruct (decide (s ≠ v ∧ n = s)). }
  assert (Hlast' : last (path ++ [n]) = Some n) by apply last_snoc.
  assert (Hhead' : head (path ++ [n]) = Some s).
  { destruct path; [done|]. done. }
  rewrite Hhead'.
  assert (n = s ∨ n ≠ s) as [Hns|Hns] by lia.
  - (* the walk is back at its start *)
    rewrite bool_decide_eq_true_2 by congruence.
    assert (Hsv : s ≠ v) by congruence.
    exists g', (path ++ [n]). split; [done|]. split; [done|].
    split; [|split; [done|lia]].
    intros a _ [sa Hsa].
    assert (a = v ∨ a ≠ v) as [Hav|Hav] by lia.
    { rewrite Hav, Hkv, decide_True in Hsa by done. done. }
    assert (a = n ∨ a ≠ n) as [Han|Han] by lia.
    { rewrite Han, Hkn, decide_True in Hsa by done. done. }
    destruct (Hother a Hav Han) as [Hl Ha']. rewrite Ha'.
    rewrite Hdeg by (rewrite <- Hl; eauto).
    rewrite decide_False; [done|]. intros [_ [?|?]]; congruence.
  - rewrite bool_decide_eq_false_2 by congruence.
    rewrite decide_False in Hszn' by tauto.
    rewrite decide_False in Hkn by tauto.
    rewrite decide_False by lia.
    assert (Hd : loop_degrees g' s n).
    { split; [|split; [eauto|]].
      - assert (s = v ∨ s ≠ v) as [Hsv|Hsv] by lia.
        + rewrite Hsv, Hkv, decide_False by tauto. eauto.
        + destruct (Hother s Hsv ltac:(congruence)) as [-> _]. done.
      - intros a [sa Hsa].
        assert (a = n ∨ a ≠ n) as [Han|Han] by lia.
        { rewrite Han, (adj_Some _ _ _ Hkn), Hszn'.
          rewrite decide_True; [done|]. split; [congruence|by right]. }
        assert (a = v ∨ a ≠ v) as [Hav|Hav] by lia.
        { rewrite Hav in Hsa |- *. rewrite Hkv in Hsa.
          destruct (decide (s ≠ v)) as [Hsv|Hsv]; [done|].
          rewrite (adj_Some _ _ _ Hkv), size_remove, Hszv by done.
          rewrite decide_True; [done|].
          split; [congruence|]. left. lia. }
        destruct (Hother a Hav Han) as [Hl Ha']. rewrite Ha'.
        rewrite Hdeg by (rewrite <- Hl; eauto).
        destruct (decide (s ≠ v ∧ (a = s ∨ a = v))) as [[Hsv Has]|Hno].
        + rewrite decide_True; [done|]. split; [congruence|].
          destruct Has; [by left|done].
        + rewrite decide_False; [done|]. intros [_ [Has|?]]; [|done].
          apply Hno. split; [|by left]. congruence. }
    assert (Hf : size (links g') < fuel) by lia.
    destruct (IH g' n (path ++ [n]) Hwf' Hd Hf Hhead' Hlast' Hacc')
      as (g'' & path'' & Hrun & Hw'' & Hd'' & Ha'' & Hs'').
    exists g'', path''. split; [done|]. split; [done|]. split; [done|].
    split; [done|]. lia.
Qed.

Lemma links_empty : links (∅ : gmap Z (gset Z)) = ∅.
Proof.
  apply set_eq. intros [a b]. rewrite elem_of_links. unfold adj.
  rewrite lookup_empty. simpl. done.
Qed.

Lemma compose_loops_spec (P : Platform) (g0 : gmap Z (gset Z))
    (steps0 : list (Z * Z)) :
  ∀ fuel g temp,
    wf_graph g → all_degree_2 g ∅ →
    size (links g) < fuel →
    accounted g0 g (steps0 ++ mjoin (consecutive <$> temp)) →
    ∃ loops,
      compose_loops fuel P g temp = Ret loops
      ∧ accounted g0 ∅ (steps0 ++ mjoin (consecutive <$> loops)).
Proof.
  induction fuel as [|fuel IH]; intros g temp Hwf Hdeg Hfuel Hacc; [lia|].
  cbn [compose_loops].
  destruct (begin_ (hash_vertex P) (dom g)) as [v|] eqn:Hbegin.
  - apply begin_Some in Hbegin. apply elem_of_dom in Hbegin as [sv Hv].
    assert (Hsz : size (adj g v) = 2) by (apply Hdeg; [set_solver|eauto]).
    unfold adj in Hsz. rewrite (bool_decide_eq_true_2 _ Hsz).
    simpl CARVE_ASSERT. rewrite Ret_bind.
    assert (Hld : loop_degrees g v v).
    { split; [eauto|]. split; [eauto|]. intros a Ha.
      rewrite decide_False by tauto. apply Hdeg; [set_solver|done]. }
    assert (Hacc0 : accounted g0 g ((steps0 ++ mjoin (consecutive <$> temp))
                                    ++ consecutive [v])).
    { unfold consecutive at 2. simpl. by rewrite app_nil_r. }
    destruct (walk_loop_spec P g0 v (steps0 ++ mjoin (consecutive <$> temp))
                (S (size (links g))) g v [v] Hwf Hld ltac:(lia)
                eq_refl eq_refl Hacc0)
      as (g' & path & Hrun & Hwf' & Hdeg' & Hacc' & Hlt).
    rewrite Hrun, Ret_bind. apply IH; [done|done|lia|].
    rewrite fmap_app, join_app. simpl. rewrite app_nil_r.
    by rewrite app_assoc.
  - apply begin_None in Hbegin. apply dom_empty_iff_L in Hbegin. subst g.
    exists temp. done.
Qed.

Lemma join_walked_edges (l : list (list Z)) :
  mjoin (walked_edges <$> l)
  = (λ e : Z * Z, ordered_edge e.1 e.2) <$> mjoin (consecutive <$> l).
Proof.
  induction l as [|p l IH]; [done|].
  change (walked_edges p ++ mjoin (walked_edges <$> l)
          = (λ e : Z * Z, ordered_edge e.1 e.2)
            <$> (consecutive p ++ mjoin (consecutive <$> l))).
  by rewrite fmap_app, IH.
Qed.

Lemma elem_of_find_endpoints (g : gmap Z (gset Z)) (X : list Z) (v : Z) :
  v ∈ find_endpoints g X
  ↔ (is_Some (g !! v) ∧ size (adj g v) ≠ 2) ∨ (v ∈ X ∧ is_Some (g !! v)).
Proof.
  unfold find_endpoints.
  rewrite elem_of_union, elem_of_dom, elem_of_list_to_set, list_elem_of_filter.
  assert (is_Some (filter (λ kv : Z * gset Z, size kv.2 ≠ 2) g !! v)
          ↔ is_Some (g !! v) ∧ size (adj g v) ≠ 2) as ->; [|tauto].
  split.
  - intros [s Hs]. apply map_lookup_filter_Some in Hs as [Hs Hsz]. simpl in Hsz.
    rewrite (adj_Some _ _ _ Hs). eauto.
  - intros [[s Hs] Hsz]. exists s. apply map_lookup_filter_Some.
    split; [done|]. simpl. by rewrite (adj_Some _ _ _ Hs) in Hsz.
Qed.

(** ** Path/loop composer: what a run that returns has walked *)

Lemma step_sound (g : gmap Z (gset Z)) (v n : Z) (sv qs : gset Z) :
  g !! v = Some sv → n ∈ sv → is_Some (g !! n) →
  erase_if_empty (erase_link (erase_link g v n) n v) v !! n = Some qs →
  ∀ a b,
    b ∈ adj (if decide (size qs = 0)
             then delete n (erase_if_empty (erase_link (erase_link g v n) n v) v)
             else erase_if_empty (erase_link (erase_link g v n) n v) v) a
    ↔ b ∈ adj g a ∧ (a, b) ≠ (v, n) ∧ (a, b) ≠ (n, v).
Proof.
  intros Hv Hn [sn Hsn] Hq.
  destruct (decide (v = n)) as [<-|Hvn].
  - destruct (self_step_adj g v sv qs Hv Hq) as [Hsz Hadj].
    rewrite decide_False by done. intros a b. rewrite Hadj. tauto.
  - destruct (link_step_lookup g v n sv sn Hv Hsn Hvn) as [Hq' Hg'].
    rewrite Hq' in Hq. injection Hq as <-.
    by apply (link_step_adj g _ v n sv sn Hv Hsn).
Qed.

Lemma accounted_sym_step (g0 g g' : gmap Z (gset Z)) (steps : list (Z * Z))
    (v n : Z) :
  sym_graph g → accounted g0 g steps → n ∈ adj g v →
  (∀ a b, b ∈ adj g' a ↔ b ∈ adj g a ∧ (a, b) ≠ (v, n) ∧ (a, b) ≠ (n, v)) →
  sym_graph g' ∧ accounted g0 g' (steps ++ [(v, n)]).
Proof.
  intros Hsym Hacc Hn Hadj. split.
  - intros a b. rewrite !Hadj. intros (Hab & H1 & H2).
    split; [by apply Hsym|]. split; congruence.
  - by destruct (accounted_step g0 g g' steps v n Hacc Hn (Hsym _ _ Hn) Hadj).
Qed.

Lemma walk_path_sound (P : Platform) (endpoints : gset Z)
    (g0 : gmap Z (gset Z)) (steps0 : list (Z * Z)) :
  ∀ fuel g v path g' path',
    walk_path fuel P endpoints g (Some v) v path = Ret (g', path') →
    sym_graph g → last path = Some v →
    accounted g0 g (steps0 ++ consecutive path) →
    sym_graph g' ∧ accounted g0 g' (steps0 ++ consecutive path').
Proof.
  induction fuel as [|fuel IH]; intros g v path g' path' Hrun Hsym Hlast Hacc;
    [done|].
  cbn [walk_path] in Hrun.
  destruct (g !! v) as [sv|] eqn:Hv; [|done].
  destruct (decide (size sv = 0)) as [Hz|Hz]; [by inversion Hrun; subst|].
  destruct (begin_ (hash_vertex P) sv) as [n|] eqn:Hbegin; [|done].
  apply begin_Some in Hbegin.
  destruct (g !! n) as [sn|] eqn:Hn; [|done].
  cbv zeta in Hrun.
  destruct (erase_if_empty (erase_link (erase_link g v n) n v) v !! n)
    as [qs|] eqn:Hq; [|done].
  pose proof (step_sound g v n sv qs Hv Hbegin (mk_is_Some _ _ Hn) Hq) as Hadj.
  assert (Hnadj : n ∈ adj g v) by (by rewrite (adj_Some _ _ _ Hv)).
  destruct (accounted_sym_step g0 g _ _ v n Hsym Hacc Hnadj Hadj)
    as [Hsym1 Hacc1].
  rewrite <- app_assoc, <- (consecutive_snoc path v n Hlast) in Hacc1.
  destruct (bool_decide (head (path ++ [n]) = Some n)
            || bool_decide ((if decide (size qs = 0) then None else Some n)
                            = None)
            || bool_decide (n ∈ endpoints)) eqn:Hstop.
  - by inversion Hrun; subst.
  - destruct (decide (size qs = 0)) as [E|E].
    { rewrite (bool_decide_eq_true_2 (None = None)) in Hstop by done.
      by rewrite orb_true_r in Hstop. }
    eapply IH; [exact Hrun|done|apply last_snoc|done].
Qed.

Lemma compose_paths_sound (P : Platform) (g0 : gmap Z (gset Z)) :
  ∀ fuel endpoints g temp g' paths,
    compose_paths fuel P endpoints g temp = Ret (g', paths) →
    sym_graph g → accounted g0 g (mjoin (consecutive <$> temp)) →
    sym_graph g' ∧ accounted g0 g' (mjoin (consecutive <$> paths)).
Proof.
  induction fuel as [|fuel IH]; intros endpoints g temp g' paths Hrun Hsym Hacc;
    [done|].
  cbn [compose_paths] in Hrun.
  destruct (begin_ (hash_vertex P) endpoints) as [v|]; [|by inversion Hrun; subst].
  destruct (g !! v) as [sv|]; [|by eapply IH].
  apply bind_Ret in Hrun as ([g1 path] & Hwalk & Hrun).
  apply bind_Ret in Hrun as (b & _ & Hrun).
  apply bind_Ret in Hrun as (? & _ & Hrun).
  assert (Hacc0 : accounted g0 g (mjoin (consecutive <$> temp)
                                  ++ consecutive [v])).
  { unfold consecutive at 2. simpl. by rewrite app_nil_r. }
  destruct (walk_path_sound P endpoints g0 _ _ _ _ _ _ _ Hwalk Hsym eq_refl Hacc0)
    as [Hsym1 Hacc1].
  eapply IH; [exact Hrun|done|].
  rewrite fmap_app, join_app. simpl. by rewrite app_nil_r.
Qed.

Lemma walk_loop_sound (P : Platform) (g0 : gmap Z (gset Z))
    (steps0 : list (Z * Z)) :
  ∀ fuel g v path g' path',
    walk_loop fuel P g v v path = Ret (g', path') →
    sym_graph g → last path = Some v →
    accounted g0 g (steps0 ++ consecutive path) →
    sym_graph g' ∧ accounted g0 g' (steps0 ++ consecutive path').
Proof.
  induction fuel as [|fuel IH]; intros g v path g' path' Hrun Hsym Hlast Hacc;
    [done|].
  cbn [walk_loop] in Hrun.
  destruct (g !! v) as [sv|] eqn:Hv; [|done].
  destruct (begin_ (hash_vertex P) sv) as [n|] eqn:Hbegin; [|done].
  apply begin_Some in Hbegin.
  destruct (g !! n) as [sn|] eqn:Hn; [|done].
  cbv zeta in Hrun.
  destruct (erase_if_empty (erase_link (erase_link g v n) n v) v !! n)
    as [qs|] eqn:Hq; [|done].
  pose proof (step_sound g v n sv qs Hv Hbegin (mk_is_Some _ _ Hn) Hq) as Hadj.
  assert (Hnadj : n ∈ adj g v) by (by rewrite (adj_Some _ _ _ Hv)).
  destruct (accounted_sym_step g0 g _ _ v n Hsym Hacc Hnadj Hadj)
    as [Hsym1 Hacc1].
  rewrite <- app_assoc, <- (consecutive_snoc path v n Hlast) in Hacc1.
  destruct (bool_decide (head (path ++ [n]) = Some n)).
  - by inversion Hrun; subst.
  - destruct (decide (size qs = 0)) as [E|E]; [done|].
    eapply IH; [exact Hrun|done|apply last_snoc|done].
Qed.

Lemma compose_loops_sound (P : Platform) (g0 : gmap Z (gset Z))
    (steps0 : list (Z * Z)) :
  ∀ fuel g temp loops,
    compose_loops fuel P g temp = Ret loops →
    sym_graph g → accounted g0 g (steps0 ++ mjoin (consecutive <$> temp)) →
    accounted g0 ∅ (steps0 ++ mjoin (consecutive <$> loops)).
Proof.
  induction fuel as [|fuel IH]; intros g temp loops Hrun Hsym Hacc; [done|].
  cbn [compose_loops] in Hrun.
  destruct (begin_ (hash_vertex P) (dom g)) as [v|] eqn:Hbegin.
  - apply bind_Ret in Hrun as (? & _ & Hrun).
    apply bind_Ret in Hrun as ([g1 path] & Hwalk & Hrun).
    assert (Hacc0 : accounted g0 g ((steps0 ++ mjoin (consecutive <$> temp))
                                    ++ consecutive [v])).
    { unfold consecutive at 2. simpl. by rewrite app_nil_r. }
    destruct (walk_loop_sound P g0 _ _ _ _ _ _ _ Hwalk Hsym eq_refl Hacc0)
      as [Hsym1 Hacc1].
    eapply IH; [exact Hrun|done|].
    rewrite fmap_app, join_app. simpl. rewrite app_nil_r.
    by rewrite app_assoc.
  - apply begin_None in Hbegin. apply dom_empty_iff_L in Hbegin. subst g.
    by inversion Hrun; subst.
Qed.

Lemma accounted_nil (g : gmap Z (gset Z)) : accounted g g [].
Proof.
  split; [|split]; simpl.
  - apply set_eq. intros e. rewrite !elem_of_union, elem_of_empty. tauto.
  - by intros e ?%elem_of_nil.
  - constructor.
Qed.

(** Once the graph is empty, the steps are the edges: each once, in one
    of its two directions. *)
Lemma accounted_walked (E : gset (Z * Z)) (g : gmap Z (gset Z))
    (paths loops : list (list Z)) :
  (∀ a b, b ∈ adj g a ↔ (a, b) ∈ E ∨ (b, a) ∈ E) →
  accounted g ∅ (mjoin (consecutive <$> paths) ++ mjoin (consecutive <$> loops)) →
  NoDup (mjoin (walked_edges <$> (paths ++ loops)))
  ∧ (∀ a b, (a, b) ∈ E → ordered_edge a b ∈ mjoin (walked_edges <$> (paths ++ loops)))
  ∧ (∀ x, x ∈ mjoin (walked_edges <$> (paths ++ loops)) →
          ∃ a b, (a, b) ∈ E ∧ x = ordered_edge a b).
Proof.
  intros Hadj (H1 & H2 & H3).
  assert (Hw : mjoin (walked_edges <$> (paths ++ loops))
               = (λ e : Z * Z, ordered_edge e.1 e.2)
                 <$> (mjoin (consecutive <$> paths)
                      ++ mjoin (consecutive <$> loops))).
  { by rewrite join_walked_edges, fmap_app, join_app. }
  rewrite links_empty in H1.
  assert (Hsteps : ∀ a b, (a, b) ∈ links g ↔
            (a, b) ∈ mjoin (consecutive <$> paths) ++ mjoin (consecutive <$> loops)
            ∨ (b, a) ∈ mjoin (consecutive <$> paths) ++ mjoin (consecutive <$> loops)).
  { intros a b. rewrite H1, !elem_of_union, !elem_of_list_to_set, elem_of_empty.
    rewrite list_elem_of_fmap. split.
    - intros [[[]|?]|([c d] & [= -> ->] & ?)]; [by left|by right].
    - intros [?|?]; [left; by right|right]. by exists (b, a). }
  rewrite Hw. split; [done|]. split.
  - intros a b Hab.
    assert (Hl : (a, b) ∈ links g) by (apply elem_of_links, Hadj; by left).
    apply Hsteps in Hl as [Hl|Hl].
    + apply list_elem_of_fmap. by exists (a, b).
    + apply list_elem_of_fmap. exists (b, a). split; [|done].
      simpl. unfold ordered_edge. f_equal; lia.
  - intros x Hx. apply list_elem_of_fmap in Hx as ([a b] & -> & Hab). simpl.
    assert (Hl : (a, b) ∈ links g) by (apply Hsteps; by left).
    apply elem_of_links, Hadj in Hl as [Hl|Hl].
    + by exists a, b.
    + exists b, a. split; [done|]. unfold ordered_edge. f_equal; lia.
Qed.


(** ** The driver: which loops are returned *)

Lemma find_index_elem (l : list Z) (v : Z) :
  v ∈ l → ∃ i, find_index l v = Some i.
Proof.
  intros Hv. unfold find_index.
  destruct (list_find_elem_of (λ x, x = v) l v Hv eq_refl) as [[i x] Hf].
  exists i. by rewrite Hf.
Qed.

Lemma chord_loops_NoDup (base_loop : list Z) (i1 i2 : nat) :
  NoDup base_loop → i1 < i2 →
  NoDup (take (i2 - i1 + 1) (drop i1 base_loop))
  ∧ NoDup (drop i2 base_loop ++ take (i1 + 1) base_loop).
Proof.
  intros Hnd Hlt. split.
  - eapply sublist_NoDup; [done|].
    etrans; [apply sublist_take | apply sublist_drop].
  - rewrite (comm (++)). eapply sublist_NoDup; [done|].
    rewrite <- (take_drop (i1 + 1) base_loop) at 3.
    apply sublist_app; [done|].
    replace i2 with ((i1 + 1) + (i2 - (i1 + 1))) by lia.
    rewrite <- drop_drop. apply sublist_drop.
Qed.

(** C2, as the code has it: the loops that [generateOneFaceLoop] copies
    from a base loop without a repeated vertex repeat no vertex either: the
    base loop itself, returned when the face has no entry in
    [face_split_edges] or no split edge off the perimeter, and the two
    loops cut by a single chord between two different vertices of the base
    loop. *)
Theorem generateOneFaceLoop_simple (fuel : nat) (K : Kernel) (P : Platform)
    (face : face_t) (data : Data) (base_loop : list Z) (loops : list (list Z)) :
  assembleBaseLoop face data = Ret base_loop →
  NoDup base_loop →
  generateOneFaceLoop fuel K P face data = Ret loops →
  (face_split_edges data !! face_addr face = None
   ∨ ∃ fse pe,
       face_split_edges data !! face_addr face = Some fse
       ∧ perimeter_edges base_loop = Ret pe
       ∧ (collect_split_edges pe fse = ∅
          ∨ ∃ a b, collect_split_edges pe fse = {[ (a, b) ]}
                   ∧ a ≠ b ∧ a ∈ base_loop ∧ b ∈ base_loop)) →
  Forall NoDup loops.
Proof.
  intros Hb Hnd Hrun [Hnone | (fse & pe & Hfse & Hpe & [Hempty | Hchord])].
  - rewrite (generate_no_entry _ _ _ _ _ _ Hb Hnone) in Hrun.
    inversion Hrun; subst. by repeat constructor.
  - rewrite (generate_no_split_edges _ _ _ _ _ _ _ _ Hb Hfse Hpe Hempty) in Hrun.
    inversion Hrun; subst. by repeat constructor.
  - destruct Hchord as (a & b & Hsplit & Hab & Ha & Hb').
    destruct (find_index_elem _ _ Ha) as [ia Hia].
    destruct (find_index_elem _ _ Hb') as [ib Hib].
    rewrite (generate_single_chord _ _ _ _ _ _ _ _ _ _ _ _
               Hb Hfse Hpe Hsplit Hia Hib) in Hrun.
    inversion Hrun; subst; clear Hrun.
    apply find_index_Some in Hia as [Hia _].
    apply find_index_Some in Hib as [Hib _].
    assert (ia ≠ ib) by (intros ->; congruence).
    destruct (chord_loops_NoDup base_loop (Nat.min ia ib) (Nat.max ia ib) Hnd)
      as [H1 H2]; [lia|].
    by repeat constructor.
Qed.

Lemma orient_loop_spec K face l face_loops hole_loops face_loops' hole_loops' :
  orient_loop K face l (face_loops, hole_loops) = Ret (face_loops', hole_loops') →
  ∃ f h,
    face_loops' = face_loops ++ [f] ∧ hole_loops' = hole_loops ++ [h]
    ∧ h = reverse f
    ∧ ((f = reverse (removelast l)
        ∧ ¬ (0 < signedArea K (map (project K face) f))%Q)
       ∨ (h = reverse (removelast l)
          ∧ (0 < signedArea K (map (project K face) h))%Q)).
Proof.
  unfold orient_loop. intros H.
  apply bind_Ret in H as (fwd & Hfwd & H).
  assert (fwd = removelast l) as ->.
  { unfold but_last in Hfwd. destruct l; [done|]. by inversion Hfwd. }
  unfold Qltb in H.
  destruct (Qlt_le_dec 0 (signedArea K (map (project K face)
                                            (reverse (removelast l)))))
    as [Hpos|Hneg]; inversion H; subst; clear H.
  - exists (removelast l), (reverse (removelast l)).
    repeat split; try done. by right.
  - exists (reverse (removelast l)), (removelast l).
    repeat split; try done; [by rewrite reverse_involutive|].
    left. split; [done|]. by apply Qle_not_lt.
Qed.

Lemma generateFaceLoops_spec fuel K P data :
  ∀ poly n0 out0 n out,
    for_each poly
      (λ face (st : nat * list (face_t * list Z)),
         let '(generated_edges, face_loops_out) := st in
         face_loops ← generateOneFaceLoop fuel K P face data;
         Ret (generated_edges + sum_list (length <$> face_loops),
              face_loops_out ++ ((λ f, (face, f)) <$> face_loops)))
      (n0, out0) = Ret (n, out) →
    ∃ lss,
      Forall2 (λ face ls, generateOneFaceLoop fuel K P face data = Ret ls)
              poly lss
      ∧ out = out0 ++ mjoin (zip_with (λ face ls, (λ f, (face, f)) <$> ls)
                                      poly lss)
      ∧ n = n0 + sum_list (length <$> mjoin lss).
Proof.
  induction poly as [|face poly IH]; intros n0 out0 n out H.
  - simpl in H. inversion H; subst. exists []. simpl.
    split; [constructor|]. split; [by rewrite app_nil_r|lia].
  - cbn [for_each] in H. apply bind_Ret in H as ([n1 out1] & Hstep & H).
    apply bind_Ret in Hstep as (ls & Hls & Hstep). inversion Hstep; subst.
    apply IH in H as (lss & Hall & -> & ->).
    exists (ls :: lss). split; [by constructor|]. simpl.
    split; [by rewrite <- app_assoc|].
    rewrite fmap_app, sum_list_with_app. lia.
Qed.


(** ** The statements at the scenarios *)

Ltac by_compute := apply (bool_decide_unpack _); vm_compute; exact I.

Lemma no_self_edge (E : gset (Z * Z)) :
  Forall (λ e : Z * Z, e.1 ≠ e.2) (elements E) →
  ∀ a b, (a, b) ∈ E → a ≠ b.
Proof.
  intros Hall a b Hab. rewrite Forall_forall in Hall.
  apply (Hall (a, b)). by apply elem_of_elements.
Qed.

(** The base loop of the face with two divided edges: the vertex 24 after
    1, and 31, 30 (the stored direction reversed) after 4. *)
Lemma assembleBaseLoop_spec_witness :
  length (edges Scenario.divided_face) = length (vertices Scenario.divided_face)
  ∧ assembleBaseLoop Scenario.divided_face Scenario.divided
    = Ret [1; 24; 2; 3; 4; 31; 30]%Z.
Proof.
  split; [reflexivity|].
  destruct (assembleBaseLoop_spec Scenario.divided_face Scenario.divided eq_refl)
    as (base_loop & Hrun & Hblocks & _).
  rewrite Hrun, Hblocks. reflexivity.
Defined.

(** The square without split edges, and with split edges that lie on its
    perimeter, is returned as it is. *)
Lemma generateOneFaceLoop_unsplit_witness :
  generateOneFaceLoop 0 Scenario.K_opposite (Scenario.platform true)
    Scenario.square Scenario.untouched = Ret [[1; 2; 3; 4]%Z]
  ∧ generateOneFaceLoop 0 Scenario.K_opposite (Scenario.platform true)
      Scenario.square (Scenario.split Scenario.square {[ (1, 2); (1, 4) ]}%Z)
    = Ret [[1; 2; 3; 4]%Z].
Proof.
  split.
  - destruct (generateOneFaceLoop_unsplit 0 Scenario.K_opposite
                (Scenario.platform true) Scenario.square Scenario.untouched eq_refl)
      as (base_loop & Hbase & Hnone & _).
    vm_compute in Hbase. injection Hbase as <-. apply Hnone. reflexivity.
  - destruct (generateOneFaceLoop_unsplit 0 Scenario.K_opposite
                (Scenario.platform true) Scenario.square
                (Scenario.split Scenario.square {[ (1, 2); (1, 4) ]}%Z) eq_refl)
      as (base_loop & Hbase & _ & Hsome).
    vm_compute in Hbase. injection Hbase as <-.
    apply (Hsome {[ (1, 2); (1, 4) ]}%Z); [apply lookup_singleton_eq | done |].
    intros a b [Hab|Hab]%elem_of_union; apply elem_of_singleton in Hab;
      injection Hab as -> ->.
    + left. by exists 0.
    + right. by exists 3.
Defined.

(** The square cut by the chord from 2 to 4. *)
Lemma generateOneFaceLoop_single_chord_witness :
  generateOneFaceLoop 0 Scenario.K_opposite (Scenario.platform true)
    Scenario.square (Scenario.split Scenario.square Scenario.chord)
  = Ret [[2; 3; 4]; [4; 1; 2]]%Z.
Proof.
  apply (generateOneFaceLoop_single_chord 0 Scenario.K_opposite
           (Scenario.platform true) Scenario.square
           (Scenario.split Scenario.square Scenario.chord)
           [1; 2; 3; 4]%Z Scenario.chord
           (list_to_set (consecutive [1; 2; 3; 4]%Z) ∪ {[ (4, 1)%Z ]})
           2%Z 4%Z 1 3).
  - reflexivity.
  - apply lookup_singleton_eq.
  - reflexivity.
  - vm_compute. reflexivity.
  - reflexivity.
  - reflexivity.
Defined.

(** Both loops of the square cut by the chord repeat no vertex. *)
Lemma generateOneFaceLoop_simple_witness :
  assembleBaseLoop Scenario.square (Scenario.split Scenario.square Scenario.chord)
  = Ret [1; 2; 3; 4]%Z
  ∧ NoDup [1; 2; 3; 4]%Z
  ∧ generateOneFaceLoop 0 Scenario.K_opposite (Scenario.platform true)
      Scenario.square (Scenario.split Scenario.square Scenario.chord)
    = Ret [[2; 3; 4]; [4; 1; 2]]%Z
  ∧ Forall NoDup [[2; 3; 4]; [4; 1; 2]]%Z.
Proof.
  assert (Hnd : NoDup [1; 2; 3; 4]%Z) by (by_compute).
  assert (Hrun : generateOneFaceLoop 0 Scenario.K_opposite (Scenario.platform true)
                   Scenario.square (Scenario.split Scenario.square Scenario.chord)
                 = Ret [[2; 3; 4]; [4; 1; 2]]%Z) by (vm_compute; reflexivity).
  split; [reflexivity|]. split; [exact Hnd|]. split; [exact Hrun|].
  apply (generateOneFaceLoop_simple 0 Scenario.K_opposite
           (Scenario.platform true) Scenario.square
           (Scenario.split Scenario.square Scenario.chord) [1; 2; 3; 4]%Z).
  - reflexivity.
  - exact Hnd.
  - exact Hrun.
  - right. exists Scenario.chord,
      (list_to_set (consecutive [1; 2; 3; 4]%Z) ∪ {[ (4, 1)%Z ]}).
    split; [apply lookup_singleton_eq|]. split; [reflexivity|].
    right. exists 2%Z, 4%Z. split; [vm_compute; reflexivity|].
    split; [done|]. split; by_compute.
Defined.


(** The chord from 4 to 2 of the square is found at the indices (3, 1):
    it is reversed, and sorted after the synthetic crossing. *)
Lemma crossing_list_spec_witness :
  locate_endpoints Scenario.K_opposite Scenario.square [1; 2; 3; 4]%Z [[4; 2]%Z]
  = Ret [{| path := 0; edge_idx := (3, 1) |}]
  ∧ ∃ store cross noncross,
      crossing_list Scenario.K_opposite Scenario.square [1; 2; 3; 4]%Z [[4; 2]%Z]
                    [{| path := 0; edge_idx := (3, 1) |}]
      = Ret (store, cross, noncross)
      ∧ store !! 0 = Some [2; 4]%Z
      ∧ StronglySorted crossing_le cross.
Proof.
  assert (Hloc : locate_endpoints Scenario.K_opposite Scenario.square
                   [1; 2; 3; 4]%Z [[4; 2]%Z]
                 = Ret [{| path := 0; edge_idx := (3, 1) |}])
    by (vm_compute; reflexivity).
  split; [exact Hloc|].
  destruct (crossing_list_spec Scenario.K_opposite Scenario.square
              [1; 2; 3; 4]%Z [[4; 2]%Z] [{| path := 0; edge_idx := (3, 1) |}]
              ltac:(done) Hloc)
    as (store & cross & noncross & b0 & bl & Hrun & _ & _ & Hswap & _ & _ & _ & _ & Hsorted).
  exists store, cross, noncross. split; [exact Hrun|]. split; [|exact Hsorted].
  apply (Hswap 0 {| path := 0; edge_idx := (3, 1) |} [4; 2]%Z); [done|done|simpl; lia].
Defined.

(** The square with both diagonals [2 -> 4] and [4 -> 2] among its edges
    is split into two loops of negative area. *)
Lemma splitFace_classifies_witness :
  ∃ face_loops hole_loops,
    splitFace Scenario.K_opposite (Scenario.platform true) Scenario.square
              Scenario.diagonal_both_ways [] [] = Ret (face_loops, hole_loops)
    ∧ length face_loops = 2
    ∧ Forall (negative_area Scenario.K_opposite Scenario.square) face_loops
    ∧ Forall (nonnegative_area Scenario.K_opposite Scenario.square) hole_loops.
Proof.
  destruct (splitFace Scenario.K_opposite (Scenario.platform true) Scenario.square
              Scenario.diagonal_both_ways [] []) as [[fl hl]|e] eqn:Hrun;
    [|vm_compute in Hrun; discriminate].
  exists fl, hl. split; [reflexivity|].
  destruct (splitFace_classifies Scenario.K_opposite (Scenario.platform true)
              Scenario.square) as [_ Hall].
  destruct (Hall _ _ _ _ _ Hrun) as (nf & nh & -> & -> & Hnf & Hnh).
  split; [|by split].
  vm_compute in Hrun. by injection Hrun as <- <-.
Defined.


Lemma nested_two_levels : nested id [[0]; [0; 1]].
Proof.
  split.
  - intros l Hl. apply elem_of_cons in Hl as [->|Hl]; [done|].
    apply list_elem_of_singleton in Hl as ->. done.
  - intros l f Hl Hf. apply elem_of_cons in Hl as [->|Hl].
    + apply list_elem_of_singleton in Hf as ->.
      exists [0]. split; [by left|]. split; [by left|done].
    + apply list_elem_of_singleton in Hl as ->.
      apply elem_of_cons in Hf as [->|Hf].
      * exists [0]. split; [by left|]. split; [by left|done].
      * apply list_elem_of_singleton in Hf as ->.
        exists [0; 1]. split; [by right; left|]. split; [by right; left|done].
Qed.



(** ** Where the statements of the specification fail *)

Lemma assign_holes_stuck (cf fh : list (list nat)) (u : Z) :
  u ≠ 0%Z →
  assign_round cf fh u = Ret (cf, fh, u) →
  ∀ fuel, assign_holes fuel cf fh u = Throw OutOfFuel.
Proof.
  intros Hu Hround fuel. induction fuel as [|fuel IH]; [done|].
  cbn [assign_holes]. rewrite decide_False by done.
  by rewrite Hround, Ret_bind.
Qed.

Lemma mergeFacesAndHoles_stuck K face fl hl cf hsv fl' u :
  computeContainment K face fl hl = Ret (cf, hsv) →
  for_range 0 (length cf) (patch_step cf hsv hl) (fl, Z.of_nat (length hl))
  = Ret (fl', u) →
  (∀ fuel, assign_holes fuel cf (replicate (length fl) []) u = Throw OutOfFuel) →
  ∀ fuel, mergeFacesAndHoles fuel K face fl hl = Throw OutOfFuel.
Proof.
  intros Hcc Hpatch Hstuck fuel. unfold mergeFacesAndHoles.
  rewrite Hcc, Ret_bind, Hpatch, Ret_bind, Hstuck. by rewrite Throw_bind.
Qed.

Lemma generate_only_loops fuel K P face data base_loop fse pe loops fl hl :
  assembleBaseLoop face data = Ret base_loop →
  face_split_edges data !! face_addr face = Some fse →
  perimeter_edges base_loop = Ret pe →
  size (collect_split_edges pe fse) ≠ 0 →
  single_chord P base_loop (collect_split_edges pe fse) = Ret None →
  composeEdgesIntoPaths P (collect_split_edges pe fse) base_loop = Ret ([], loops) →
  for_each loops (orient_loop K face) ([base_loop], []) = Ret (fl, hl) →
  generateOneFaceLoop fuel K P face data = merge_if_holes fuel K face fl hl.
Proof.
  intros Hb Hfse Hpe Hsize Hchord Hcompose Horient. unfold generateOneFaceLoop.
  rewrite Hb, Ret_bind, Hfse, Hpe, Ret_bind. rewrite decide_False by done.
  rewrite Hchord, Ret_bind, Hcompose, Ret_bind. simpl decide. cbv iota.
  by rewrite Horient, Ret_bind.
Qed.


(** C2 fails: a triangle of split edges that touches the square at its
    vertex 2 is cut out, and the loop that is left passes through the
    vertex 2 twice, whichever value the crossing resolver returns. *)
Lemma generateOneFaceLoop_repeats_vertex :
  assembleBaseLoop Scenario.square
    (Scenario.split Scenario.square Scenario.touching_triangle)
  = Ret [1; 2; 3; 4]%Z
  ∧ NoDup [1; 2; 3; 4]%Z
  ∧ generateOneFaceLoop 3 Scenario.K_opposite (Scenario.platform true)
      Scenario.square (Scenario.split Scenario.square Scenario.touching_triangle)
    = Ret [[1; 2; 21; 22; 2; 3; 4]; [2; 22; 21]]%Z
  ∧ generateOneFaceLoop 3 Scenario.K_opposite (Scenario.platform false)
      Scenario.square (Scenario.split Scenario.square Scenario.touching_triangle)
    = Ret [[1; 2; 21; 22; 2; 3; 4]; [2; 22; 21];
           [1; 2; 21; 22; 2; 3; 4]; [2; 22; 21]]%Z
  ∧ ¬ NoDup [1; 2; 21; 22; 2; 3; 4]%Z.
Proof.
  split; [reflexivity|]. split; [by_compute|].
  split; [vm_compute; reflexivity|]. split; [vm_compute; reflexivity|].
  by_compute.
Qed.


